(** * Accuracy metrics of [pyrec.accuracy]: RMSE, MAE and FCP

    A shallow embedding of [src/pyrec/accuracy.py].

    A rating is a Python [int] or a finite Python [float].  [rmse] and [mae]
    are modelled in binary64 arithmetic: every float operation rounds to
    nearest, ties to even, overflows to an infinity or raises
    [OverflowError] as CPython does, and [statistics.mean] sums exactly and
    rounds once.  [fcp] compares ratings, which Python does by exact value,
    and counts with integers; the mean of the counts and the final quotient
    are kept as exact rationals, from which the returned float differs by
    rounding only.  The optional textual report ([output=True]) does not
    influence the value that is returned or the exception that is raised and
    is left out. *)

From Stdlib Require Import List String ZArith QArith Qabs Qround Qpower Reals.
From Stdlib Require Import Lia Lra Lqa Psatz Permutation Qreals Bool.
Import ListNotations.

Open Scope Q_scope.

(** ** Exceptions and results *)

Module Py.

(** The exception classes that the module can meet.  The message of an
    [OverflowError] is the interpreter's and depends on the operation that
    overflowed; only the class is kept. *)
Inductive exn : Type :=
| ValueError (msg : string)
| StatisticsError (msg : string)
| ZeroDivisionError
| OverflowError.

Inductive result (A : Type) : Type :=
| Ok (a : A)
| Raise (e : exn).

Arguments Ok {A} a.
Arguments Raise {A} e.

Definition bind {A B : Type} (m : result A) (k : A -> result B) : result B :=
  match m with
  | Ok a => k a
  | Raise e => Raise e
  end.

(** Evaluation of a generator: elements in order, the first exception
    wins. *)
Fixpoint mapM {A B : Type} (f : A -> result B) (l : list A)
  : result (list B) :=
  match l with
  | [] => Ok []
  | a :: l' =>
      match f a with
      | Ok b =>
          match mapM f l' with
          | Ok bs => Ok (b :: bs)
          | Raise e => Raise e
          end
      | Raise e => Raise e
      end
  end.

(** [try: m except ZeroDivisionError: h] *)
Definition try_except_zero_division {A : Type} (m : result A) (h : result A)
  : result A :=
  match m with
  | Raise ZeroDivisionError => h
  | _ => m
  end.

End Py.

Import Py.

Notation "x <- m ;; k" := (bind m (fun x => k))
  (at level 61, m at next level, right associativity).

(** ** Numbers *)

(** A binary64 value, up to the sign of zero: a finite value, given
    exactly, an infinity or a NaN. *)
Inductive fval : Type :=
| Fin (x : Q)
| PInf
| NInf
| NaN.

(** A rating: a Python [int], or a finite Python [float] given by its exact
    value. *)
Inductive num : Type :=
| PyInt (z : Z)
| PyFloat (x : Q).

(** The exact value of a rating; Python compares numbers by it. *)
Definition num_val (n : num) : Q :=
  match n with
  | PyInt z => inject_Z z
  | PyFloat x => x
  end.

(** A number met while an error term is computed: an [int] or a [float]. *)
Inductive pyval : Type :=
| VInt (z : Z)
| VFloat (x : fval).

Definition fneg (v : fval) : fval :=
  match v with
  | Fin x => Fin (- x)
  | PInf => NInf
  | NInf => PInf
  | NaN => NaN
  end.

(** Zero or positive, [+inf] included. *)
Definition fnonneg (v : fval) : Prop :=
  match v with
  | Fin x => 0 <= x
  | PInf => True
  | _ => False
  end.

(** Not a NaN. *)
Definition no_nan (v : pyval) : Prop :=
  match v with
  | VFloat NaN => False
  | _ => True
  end.

(** Zero or positive, as an int or as a float. *)
Definition vnonneg (v : pyval) : Prop :=
  match v with
  | VInt z => (0 <= z)%Z
  | VFloat x => fnonneg x
  end.

(** ** Rounding to binary64 *)

(** [floor (log2 q)] for a positive [q]. *)
Definition ilog2 (q : Q) : Z :=
  let k := (Z.log2 (Qnum q) - Z.log2 (Zpos (Qden q)))%Z in
  if Qle_bool (2 ^ k) q then k else (k - 1)%Z.

(** The nearest integer, ties to the even one. *)
Definition round_half_even (s : Q) : Z :=
  let f := Qfloor s in
  match Qcompare (s - inject_Z f) (1 # 2) with
  | Lt => f
  | Gt => (f + 1)%Z
  | Eq => if Z.even f then f else (f + 1)%Z
  end.

(** The float [m * 2^ex], or [+inf] when it leaves the binary64 range. *)
Definition fit (m ex : Z) : fval :=
  let v := Qred (inject_Z m * 2 ^ ex) in
  if Qle_bool (2 ^ 1024) v then PInf else Fin v.

(** The exponent of the unit in the last place of a positive [q]: 53
    significant bits, and below [2^-1022] the spacing stays [2^-1074]
    (gradual underflow). *)
Definition ulp_exp (q : Q) : Z := (Z.max (ilog2 q) (-1022) - 52)%Z.

(** A positive [q] rounded to a multiple of its unit in the last place. *)
Definition rnd_pos (q : Q) : fval :=
  let ex := ulp_exp q in
  fit (round_half_even (q / 2 ^ ex)) ex.

(** Round to nearest, ties to even. *)
Definition rnd64 (q : Q) : fval :=
  let q := Qred q in
  match Qcompare q 0 with
  | Eq => Fin 0
  | Gt => rnd_pos q
  | Lt => fneg (rnd_pos (- q))
  end.

(** The exponent of the unit in the last place of the square root of a
    positive [x]. *)
Definition sqrt_ulp_exp (x : Q) : Z :=
  (Z.max (ilog2 x / 2) (-1022) - 52)%Z.

(** The correctly rounded square root of a positive [x]: the significand is
    the integer square root of the scaled argument, rounded by comparing the
    argument with the square of the midpoint. *)
Definition sqrt_pos (x : Q) : fval :=
  let ex := sqrt_ulp_exp x in
  let s := x / 2 ^ (2 * ex) in
  let f := Z.sqrt (Qfloor s) in
  let half := inject_Z f + (1 # 2) in
  let m := match Qcompare s (half * half) with
           | Lt => f
           | Gt => (f + 1)%Z
           | Eq => if Z.even f then f else (f + 1)%Z
           end in
  fit m ex.

Definition fsqrt (x : Q) : fval :=
  let x := Qred x in
  match Qcompare x 0 with
  | Eq => Fin 0
  | _ => sqrt_pos x
  end.

(** The value of a float literal: the decimal rounded to binary64. *)
Definition flt (q : Q) : Q :=
  match rnd64 q with
  | Fin v => v
  | _ => 0
  end.

(** ** Python arithmetic on ratings *)

(** Conversion of an [int] to [float], as [float(z)] and mixed arithmetic do
    it: correctly rounded, [OverflowError] beyond the range. *)
Definition int_to_float (z : Z) : result Q :=
  match rnd64 (inject_Z z) with
  | Fin v => Ok v
  | _ => Raise OverflowError
  end.

(** [a - b]: exact on two ints; otherwise an int operand is converted to
    float first and the difference of the floats is rounded. *)
Definition py_sub (a b : num) : result pyval :=
  match a, b with
  | PyInt x, PyInt y => Ok (VInt (x - y))
  | PyInt x, PyFloat y =>
      x' <- int_to_float x ;; Ok (VFloat (rnd64 (x' - y)))
  | PyFloat x, PyInt y =>
      y' <- int_to_float y ;; Ok (VFloat (rnd64 (x - y')))
  | PyFloat x, PyFloat y => Ok (VFloat (rnd64 (x - y)))
  end.

(** [v ** 2]: exact on an int; on a finite float the rounded square, and
    [OverflowError] when it leaves the range (CPython calls the C library's
    [pow], taken to be correctly rounded for the exponent 2). *)
Definition py_pow2 (v : pyval) : result pyval :=
  match v with
  | VInt z => Ok (VInt (z * z))
  | VFloat (Fin x) =>
      match rnd64 (x * x) with
      | Fin y => Ok (VFloat (Fin y))
      | _ => Raise OverflowError
      end
  | VFloat NaN => Ok (VFloat NaN)
  | VFloat _ => Ok (VFloat PInf)
  end.

(** [abs(v)] *)
Definition py_abs (v : pyval) : pyval :=
  match v with
  | VInt z => VInt (Z.abs z)
  | VFloat (Fin x) => VFloat (Fin (Qabs x))
  | VFloat NaN => VFloat NaN
  | VFloat _ => VFloat PInf
  end.

(** [float(v)] *)
Definition py_float (v : pyval) : result fval :=
  match v with
  | VInt z => x <- int_to_float z ;; Ok (Fin x)
  | VFloat x => Ok x
  end.

(** ** Data model *)

(** A prediction is the 5-tuple [(uid, iid, r_ui, est, details)]; the two
    ratings are numbers. *)
Record Prediction : Type := mkPrediction {
  uid : string;
  iid : string;
  true_r : num;
  est_r : num;
  details : unit
}.

(** The values of the two ratings, which is all that comparisons see. *)
Definition r_ui (p : Prediction) : Q := num_val (true_r p).

Definition est (p : Prediction) : Q := num_val (est_r p).

(** Strict comparison of rationals, [x < y]. *)
Definition Qlt_bool (x y : Q) : bool := negb (Qle_bool y x).

(** ** [statistics.mean] and [math.sqrt] *)

Definition Qsum (xs : list Q) : Q := fold_right Qplus 0 xs.

Definition Zsum (xs : list Z) : Z := fold_right Z.add 0%Z xs.

Definition empty_mean_msg : string := "mean requires at least one data point".

Definition is_nan (v : fval) : bool :=
  match v with NaN => true | _ => false end.

Definition is_pinf (v : fval) : bool :=
  match v with PInf => true | _ => false end.

Definition is_ninf (v : fval) : bool :=
  match v with NInf => true | _ => false end.

Definition fin_val (v : fval) : Q :=
  match v with Fin x => x | _ => 0 end.

(** [statistics.mean] on floats: [StatisticsError] on an empty sequence;
    infinities and NaNs are added up as floats and decide the result when
    present; otherwise the exact sum is divided by the number of data points
    and the quotient is rounded once. *)
Definition mean (xs : list fval) : result fval :=
  match xs with
  | [] => Raise (StatisticsError empty_mean_msg)
  | _ =>
      if existsb is_nan xs || (existsb is_pinf xs && existsb is_ninf xs)
      then Ok NaN
      else if existsb is_pinf xs then Ok PInf
      else if existsb is_ninf xs then Ok NInf
      else Ok (rnd64 (Qsum (map fin_val xs) /
                      inject_Z (Z.of_nat (List.length xs))))
  end.

(** [statistics.mean] on integers. *)
Definition mean_int (xs : list Z) : result Q :=
  match xs with
  | [] => Raise (StatisticsError empty_mean_msg)
  | _ => Ok (inject_Z (Zsum xs) / inject_Z (Z.of_nat (List.length xs)))
  end.

(** [math.sqrt]: [ValueError] on a negative argument. *)
Definition py_sqrt (x : fval) : result fval :=
  match x with
  | Fin q =>
      if Qlt_bool q 0 then Raise (ValueError "math domain error")
      else Ok (fsqrt q)
  | PInf => Ok PInf
  | NInf => Raise (ValueError "math domain error")
  | NaN => Ok NaN
  end.

(** True division [x / y]. *)
Definition py_div (x y : Q) : result Q :=
  if Qeq_bool y 0 then Raise ZeroDivisionError else Ok (x / y).

(** ** [rmse] and [mae] *)

Definition empty_msg : string := "prediction list is empty".

(** [float((true_r - est)**2)] *)
Definition sq_err (p : Prediction) : result fval :=
  d <- py_sub (true_r p) (est_r p) ;;
  s <- py_pow2 d ;;
  py_float s.

(** [float(abs(true_r - est))] *)
Definition abs_err (p : Prediction) : result fval :=
  d <- py_sub (true_r p) (est_r p) ;;
  py_float (py_abs d).

Definition rmse (predictions : list Prediction) : result fval :=
  match predictions with
  | [] => Raise (ValueError empty_msg)
  | _ =>
      sq <- mapM sq_err predictions ;;
      mse <- mean sq ;;
      rmse_ <- py_sqrt mse ;;
      Ok rmse_
  end.

Definition mae (predictions : list Prediction) : result fval :=
  match predictions with
  | [] => Raise (ValueError empty_msg)
  | _ =>
      ab <- mapM abs_err predictions ;;
      mae_ <- mean ab ;;
      Ok mae_
  end.

(** ** [fcp] *)

(** A [collections.defaultdict], kept as an association list in insertion
    order, as Python dictionaries are. *)
Definition dict (V : Type) : Type := list (string * V).

Definition keys {V : Type} (d : dict V) : list string := map fst d.

Definition values {V : Type} (d : dict V) : list V := map snd d.

(** [d[k] = f(d[k])], where a missing key is first created with the default
    value [dflt]. *)
Fixpoint update {V : Type} (dflt : V) (f : V -> V) (k : string) (d : dict V)
  : dict V :=
  match d with
  | [] => [(k, f dflt)]
  | (k', v) :: d' =>
      if String.eqb k' k then (k', f v) :: d'
      else (k', v) :: update dflt f k d'
  end.

(** Reading a key without creating it. *)
Fixpoint lookup {V : Type} (k : string) (d : dict V) : option V :=
  match d with
  | [] => None
  | (k', v) :: d' => if String.eqb k' k then Some v else lookup k d'
  end.

(** The value of a counter; a counter that was never incremented reads 0. *)
Definition get (k : string) (d : dict Z) : Z :=
  match lookup k d with
  | Some v => v
  | None => 0%Z
  end.

(** [predictions_u[u0].append((r0, est))] *)
Definition append_pred (u0 : string) (x : Q * Q) (d : dict (list (Q * Q)))
  : dict (list (Q * Q)) :=
  update [] (fun l => l ++ [x]) u0 d.

(** [nc_u[u0] += 1] *)
Definition incr (u0 : string) (d : dict Z) : dict Z :=
  update 0%Z (fun n => (n + 1)%Z) u0 d.

(** The first loop: group the [(r0, est)] pairs by user. *)
Definition group_by_user (predictions : list Prediction)
  : dict (list (Q * Q)) :=
  fold_left (fun d p => append_pred (uid p) (r_ui p, est p) d)
            predictions [].

(** [esti > estj and r0i > r0j] *)
Definition concordant (pi pj : Q * Q) : bool :=
  let '(r0i, esti) := pi in
  let '(r0j, estj) := pj in
  Qlt_bool estj esti && Qlt_bool r0j r0i.

(** [esti >= estj and r0i < r0j] *)
Definition discordant (pi pj : Q * Q) : bool :=
  let '(r0i, esti) := pi in
  let '(r0j, estj) := pj in
  Qle_bool estj esti && Qlt_bool r0i r0j.

(** The pair of counters [(nc_u, nd_u)]. *)
Definition counters : Type := (dict Z * dict Z)%type.

(** Body of the innermost loop. *)
Definition scan_pair (u0 : string) (pi : Q * Q) (st : counters) (pj : Q * Q)
  : counters :=
  let '(nc_u, nd_u) := st in
  let nc_u := if concordant pi pj then incr u0 nc_u else nc_u in
  let nd_u := if discordant pi pj then incr u0 nd_u else nd_u in
  (nc_u, nd_u).

(** [for r0j, estj in preds: ...] *)
Definition scan_row (u0 : string) (preds : list (Q * Q)) (st : counters)
  (pi : Q * Q) : counters :=
  fold_left (scan_pair u0 pi) preds st.

(** [for r0i, esti in preds: ...] *)
Definition scan_user (st : counters) (item : string * list (Q * Q))
  : counters :=
  let '(u0, preds) := item in
  fold_left (scan_row u0 preds) preds st.

(** [for u0, preds in predictions_u.items(): ...] *)
Definition scan (predictions_u : dict (list (Q * Q))) : counters :=
  fold_left scan_user predictions_u ([], []).

Definition fcp_counters (predictions : list Prediction) : counters :=
  scan (group_by_user predictions).

(** [mean(c.values()) if c else 0] *)
Definition mean_or_zero (c : dict Z) : result Q :=
  match c with
  | [] => Ok 0
  | _ => mean_int (values c)
  end.

Definition fcp_msg : string :=
  "cannot compute fcp on this list of prediction. Does every user have at least two predictions?".

Definition fcp (predictions : list Prediction) : result Q :=
  match predictions with
  | [] => Raise (ValueError empty_msg)
  | _ =>
      let '(nc_u, nd_u) := fcp_counters predictions in
      nc <- mean_or_zero nc_u ;;
      nd <- mean_or_zero nd_u ;;
      fcp_ <- try_except_zero_division
                (py_div nc (nc + nd))
                (Raise (ValueError fcp_msg)) ;;
      Ok fcp_
  end.

(** The aggregates [nc] and [nd] on their own. *)
Definition fcp_nc (predictions : list Prediction) : result Q :=
  mean_or_zero (fst (fcp_counters predictions)).

Definition fcp_nd (predictions : list Prediction) : result Q :=
  mean_or_zero (snd (fcp_counters predictions)).

(** ** The specification's vocabulary *)

(** The [(r0, est)] pairs of user [u], in input order. *)
Definition preds_of (u : string) (predictions : list Prediction)
  : list (Q * Q) :=
  map (fun p => (r_ui p, est p))
      (filter (fun p => String.eqb (uid p) u) predictions).

(** Number of ordered pairs [(pi, pj)], [pi] from [qs] and [pj] from [ps],
    that satisfy [rel]. *)
Definition prod_count (rel : Q * Q -> Q * Q -> bool) (qs ps : list (Q * Q))
  : nat :=
  List.length (filter (fun ij => rel (fst ij) (snd ij)) (list_prod qs ps)).

(** Number of ordered pairs of [ps], self-pairs and both directions
    included, that satisfy [rel]. *)
Definition pair_count (rel : Q * Q -> Q * Q -> bool) (ps : list (Q * Q))
  : nat :=
  prod_count rel ps ps.

(** ** Closed forms of the counter dictionaries *)

(** The dictionary entry that [n] increments create for a fresh user. *)
Definition entry (u : string) (n : nat) : dict Z :=
  match n with
  | O => []
  | S _ => [(u, Z.of_nat n)]
  end.

(** Entries of one counter dictionary after all users have been scanned. *)
Definition entries (rel : Q * Q -> Q * Q -> bool)
  (d : dict (list (Q * Q))) : dict Z :=
  flat_map (fun item => entry (fst item) (pair_count rel (snd item))) d.

(** Number of ordered pairs of user [u]'s predictions that satisfy [rel]. *)
Definition user_count (rel : Q * Q -> Q * Q -> bool) (l : list Prediction)
  (u : string) : nat :=
  pair_count rel (preds_of u l).

Definition user_entries (rel : Q * Q -> Q * Q -> bool) (l : list Prediction)
  (ks : list string) : dict Z :=
  flat_map (fun u => entry u (user_count rel l u)) ks.

(** No ordered pair of records of one user satisfies [rel]. *)
Definition no_pair (rel : Q * Q -> Q * Q -> bool) (l : list Prediction)
  : Prop :=
  forall p q, In p l -> In q l -> uid p = uid q ->
    rel (r_ui p, est p) (r_ui q, est q) = false.

(** ** The aggregates in the words of the specification *)

(** The users present in the input, each once. *)
Definition users (l : list Prediction) : list string :=
  nodup string_dec (map uid l).

(** The aggregate in the words of the specification: the arithmetic mean,
    over all users present in the input, of the users' counts (0 if there
    are no users); a user without a matching pair contributes a zero. *)
Definition spec_mean_count (rel : Q * Q -> Q * Q -> bool)
  (l : list Prediction) : Q :=
  match users l with
  | [] => 0
  | us => inject_Z (Zsum (map (fun u => Z.of_nat (user_count rel l u)) us)) /
          inject_Z (Z.of_nat (List.length us))
  end.

Definition spec_fcp (l : list Prediction) : Q :=
  let nc := spec_mean_count concordant l in
  let nd := spec_mean_count discordant l in
  nc / (nc + nd).

(** ** Examples *)

(** A record with [int] ratings, and one with [float] ratings written as
    decimal literals. *)
Definition Pint (u i : string) (r e : Z) : Prediction :=
  mkPrediction u i (PyInt r) (PyInt e) tt.

Definition Pflt (u i : string) (r e : Q) : Prediction :=
  mkPrediction u i (PyFloat (flt r)) (PyFloat (flt e)) tt.

(** Three users: [a] and [b] rank their two items correctly, [c] inverts
    them. *)
Definition ex3 : list Prediction :=
  [ Pint "a" "i1" 1 1; Pint "a" "i2" 2 2;
    Pint "b" "i1" 1 1; Pint "b" "i2" 2 2;
    Pint "c" "i1" 1 2; Pint "c" "i2" 2 1 ].

(** The scenario of the specification. *)
Definition ex_scenario : list Prediction :=
  [ Pflt "u1" "i1" 3.0 2.5; Pflt "u1" "i2" 4.0 3.8;
    Pflt "u2" "i1" 2.0 2.0; Pflt "u2" "i2" 5.0 4.9 ].





(** Two numbers agree to the four decimal places of the printed report. *)
Definition approx4 (x y : R) : Prop := (Rabs (x - y) < 0.00005)%R.

(** Equality of results up to equality of rationals. *)
Definition result_Qeq (a b : result Q) : Prop :=
  match a, b with
  | Ok x, Ok y => x == y
  | Raise e, Raise e' => e = e'
  | _, _ => False
  end.

(** One user, ranking perfectly inverted, and one user, ranking perfectly
    matched. *)
Definition ex_inverted : list Prediction :=
  [ Pint "u1" "i1" 1 4; Pint "u1" "i2" 2 3; Pint "u1" "i3" 3 2;
    Pint "u1" "i4" 4 1 ].

Definition ex_matching : list Prediction :=
  [ Pint "u1" "i1" 1 1; Pint "u1" "i2" 2 2; Pint "u1" "i3" 3 3 ].

(** A list in which every user has exactly one prediction. *)
Definition ex_single : list Prediction :=
  [ Pflt "u1" "i1" 3.0 2.5; Pflt "u2" "i1" 4.0 4.5; Pflt "u3" "i2" 1.0 5.0 ].

(** ** Transformations and auxiliary counts *)

(** The same records with every true rating sent through [f] and every
    estimate through [g]. *)
Definition map_ratings (f g : num -> num) (p : Prediction) : Prediction :=
  mkPrediction (uid p) (iid p) (f (true_r p)) (g (est_r p)) (details p).

(** [r0i < r0j]: the true rating of the first record is below that of the
    second. *)
Definition rating_below (pi pj : Q * Q) : bool :=
  Qlt_bool (fst pi) (fst pj).

(** The distinct elements of a list in order of first occurrence. *)
Definition first_seen (us : list string) : list string :=
  fold_left (fun ks u => if in_dec string_dec u ks then ks else ks ++ [u])
            us [].

(** User [u] owns at least one ordered pair that satisfies [rel]. *)
Definition has_pairs (rel : Q * Q -> Q * Q -> bool) (l : list Prediction)
  (u : string) : bool :=
  negb (Nat.eqb (user_count rel l u) 0).

(** ** Dictionaries *)

Section Dict.

Local Close Scope Q_scope.

Context {V : Type}.
Variable dflt : V.
Variable f : V -> V.

Lemma update_fresh (k : string) (d : dict V) :
  ~ In k (keys d) -> update dflt f k d = d ++ [(k, f dflt)].
Proof.
  induction d as [|[k' v] d IH]; simpl; intros Hk; [reflexivity|].
  destruct (String.eqb_spec k' k) as [->|Hne].
  - exfalso; apply Hk; now left.
  - f_equal. apply IH. intros Hin; apply Hk; now right.
Qed.

Lemma update_last (k : string) (v : V) (d : dict V) :
  ~ In k (keys d) -> update dflt f k (d ++ [(k, v)]) = d ++ [(k, f v)].
Proof.
  induction d as [|[k' v'] d IH]; simpl; intros Hk.
  - now rewrite String.eqb_refl.
  - destruct (String.eqb_spec k' k) as [->|Hne].
    + exfalso; apply Hk; now left.
    + f_equal. apply IH. intros Hin; apply Hk; now right.
Qed.

Lemma lookup_update (k u : string) (d : dict V) :
  lookup u (update dflt f k d) =
  if String.eqb k u
  then Some (f (match lookup u d with Some v => v | None => dflt end))
  else lookup u d.
Proof.
  induction d as [|[k' v] d IH]; simpl.
  - destruct (String.eqb_spec k u); reflexivity.
  - destruct (String.eqb_spec k' k) as [->|Hne]; simpl.
    + destruct (String.eqb_spec k u); reflexivity.
    + destruct (String.eqb_spec k' u) as [->|Hne'].
      * destruct (String.eqb_spec k u); [congruence | reflexivity].
      * apply IH.
Qed.

Lemma keys_update (k : string) (d : dict V) :
  keys (update dflt f k d) =
  if in_dec string_dec k (keys d) then keys d else keys d ++ [k].
Proof.
  induction d as [|[k' v] d IH]; simpl; [reflexivity|].
  destruct (String.eqb_spec k' k) as [->|Hne]; simpl.
  - destruct (string_dec k k); [reflexivity | congruence].
  - destruct (string_dec k' k); [congruence|].
    rewrite IH. destruct (in_dec string_dec k (keys d)); reflexivity.
Qed.

Lemma lookup_None (k : string) (d : dict V) :
  lookup k d = None <-> ~ In k (keys d).
Proof.
  induction d as [|[k' v] d IH]; simpl; [tauto|].
  destruct (String.eqb_spec k' k) as [->|Hne].
  - split; [discriminate | intros H; exfalso; apply H; now left].
  - rewrite IH. tauto.
Qed.

Lemma lookup_In (k : string) (v : V) (d : dict V) :
  NoDup (keys d) -> In (k, v) d -> lookup k d = Some v.
Proof.
  induction d as [|[k' v'] d IH]; simpl; intros Hnd Hin; [contradiction|].
  inversion Hnd as [|? ? Hk' Hnd']; subst.
  destruct Hin as [Heq|Hin].
  - inversion Heq; subst. now rewrite String.eqb_refl.
  - destruct (String.eqb_spec k' k) as [->|Hne]; [|now apply IH].
    exfalso; apply Hk'. change k with (fst (k, v)). now apply in_map.
Qed.

End Dict.

Lemma dict_as_map {V : Type} (dflt : V) (d : dict V) :
  NoDup (keys d) ->
  d = map (fun k => (k, match lookup k d with Some v => v | None => dflt end))
          (keys d).
Proof.
  intros Hnd. unfold keys. rewrite map_map.
  rewrite <- (map_id d) at 1.
  apply map_ext_in. intros [k v] Hin. simpl.
  now rewrite (lookup_In k v d Hnd Hin).
Qed.

(** ** Grouping by user *)

Section Grouping.

Local Close Scope Q_scope.

Lemma group_by_user_snoc (l : list Prediction) (p : Prediction) :
  group_by_user (l ++ [p]) =
  append_pred (uid p) (r_ui p, est p) (group_by_user l).
Proof.
  unfold group_by_user. now rewrite fold_left_app.
Qed.

Lemma preds_of_snoc (u : string) (l : list Prediction) (p : Prediction) :
  preds_of u (l ++ [p]) =
  preds_of u l ++ (if String.eqb (uid p) u then [(r_ui p, est p)] else []).
Proof.
  unfold preds_of. rewrite filter_app, map_app. simpl.
  destruct (String.eqb (uid p) u); reflexivity.
Qed.

Lemma keys_group_NoDup (l : list Prediction) :
  NoDup (keys (group_by_user l)).
Proof.
  induction l as [|p l IH] using rev_ind; [constructor|].
  rewrite group_by_user_snoc. unfold append_pred. rewrite keys_update.
  destruct (in_dec string_dec (uid p) (keys (group_by_user l))) as [Hin|Hin];
    [assumption|].
  apply NoDup_app; [assumption | repeat constructor; simpl; tauto |].
  intros x Hx [<-|[]]. contradiction.
Qed.

Lemma keys_group_In (u : string) (l : list Prediction) :
  In u (keys (group_by_user l)) <-> In u (map uid l).
Proof.
  induction l as [|p l IH] using rev_ind; [simpl; tauto|].
  rewrite group_by_user_snoc. unfold append_pred. rewrite keys_update.
  rewrite map_app, in_app_iff. simpl.
  destruct (in_dec string_dec (uid p) (keys (group_by_user l))) as [Hin|Hin].
  - rewrite IH. split; [tauto|]. intros [H|[<-|[]]]; [assumption|].
    now apply IH.
  - rewrite in_app_iff, IH. simpl. tauto.
Qed.

Lemma lookup_group (u : string) (l : list Prediction) :
  match lookup u (group_by_user l) with Some v => v | None => [] end =
  preds_of u l.
Proof.
  induction l as [|p l IH] using rev_ind; [reflexivity|].
  rewrite group_by_user_snoc, preds_of_snoc. unfold append_pred.
  rewrite lookup_update.
  destruct (String.eqb (uid p) u).
  - now rewrite IH.
  - now rewrite IH, app_nil_r.
Qed.

(** The grouping dictionary holds, for each user in order of first
    appearance, that user's pairs in input order. *)
Lemma group_by_user_spec (l : list Prediction) :
  group_by_user l =
  map (fun u => (u, preds_of u l)) (keys (group_by_user l)).
Proof.
  rewrite (dict_as_map [] (group_by_user l) (keys_group_NoDup l)) at 1.
  apply map_ext. intros u. now rewrite lookup_group.
Qed.

Lemma preds_of_absent (u : string) (l : list Prediction) :
  ~ In u (map uid l) -> preds_of u l = [].
Proof.
  intros Hu. unfold preds_of.
  induction l as [|p l IH]; simpl; [reflexivity|].
  destruct (String.eqb_spec (uid p) u) as [Heq|Hne].
  - exfalso; apply Hu; now left.
  - apply IH. intros H; apply Hu; now right.
Qed.

Lemma In_preds_of (u : string) (x : Q * Q) (l : list Prediction) :
  In x (preds_of u l) <->
  exists p, In p l /\ uid p = u /\ x = (r_ui p, est p).
Proof.
  unfold preds_of. rewrite in_map_iff. split.
  - intros [p [Hx Hp]]. apply filter_In in Hp as [Hp Hu].
    apply String.eqb_eq in Hu. now exists p.
  - intros [p [Hp [Hu Hx]]]. exists p. split; [now symmetry|].
    apply filter_In. split; [assumption | now apply String.eqb_eq].
Qed.

End Grouping.

(** ** The pair scan *)

Section Scan.

Local Close Scope Q_scope.

Lemma prod_count_nil (rel : Q * Q -> Q * Q -> bool) (ps : list (Q * Q)) :
  prod_count rel [] ps = 0.
Proof. reflexivity. Qed.

Lemma prod_count_cons (rel : Q * Q -> Q * Q -> bool) (q : Q * Q)
  (qs ps : list (Q * Q)) :
  prod_count rel (q :: qs) ps =
  List.length (filter (rel q) ps) + prod_count rel qs ps.
Proof.
  unfold prod_count. simpl. rewrite filter_app, length_app. f_equal.
  induction ps as [|p ps IH]; simpl; [reflexivity|].
  destruct (rel q p); simpl; now rewrite IH.
Qed.

Lemma iter_incr_comm (n : nat) (u : string) (d : dict Z) :
  Nat.iter n (incr u) (incr u d) = incr u (Nat.iter n (incr u) d).
Proof.
  induction n as [|n IH]; simpl; [reflexivity | now rewrite IH].
Qed.

(** The innermost loop increments each counter once per matching [pj]. *)
Lemma scan_row_spec (u : string) (pi : Q * Q) (ps : list (Q * Q))
  (st : counters) :
  scan_row u ps st pi =
  (Nat.iter (List.length (filter (concordant pi) ps)) (incr u) (fst st),
   Nat.iter (List.length (filter (discordant pi) ps)) (incr u) (snd st)).
Proof.
  unfold scan_row. revert st.
  induction ps as [|pj ps IH]; intros [c d]; simpl; [reflexivity|].
  rewrite IH. simpl.
  destruct (concordant pi pj), (discordant pi pj); simpl;
    now rewrite ?iter_incr_comm.
Qed.

Lemma scan_rows_spec (u : string) (ps qs : list (Q * Q)) (st : counters) :
  fold_left (scan_row u ps) qs st =
  (Nat.iter (prod_count concordant qs ps) (incr u) (fst st),
   Nat.iter (prod_count discordant qs ps) (incr u) (snd st)).
Proof.
  revert st.
  induction qs as [|q qs IH]; intros [c d]; simpl; [reflexivity|].
  rewrite IH, scan_row_spec. simpl.
  rewrite !prod_count_cons, !(Nat.add_comm (List.length _)), !Nat.iter_add.
  reflexivity.
Qed.

(** One user's scan increments that user's counters once per matching
    ordered pair. *)
Lemma scan_user_spec (u : string) (ps : list (Q * Q)) (st : counters) :
  scan_user st (u, ps) =
  (Nat.iter (pair_count concordant ps) (incr u) (fst st),
   Nat.iter (pair_count discordant ps) (incr u) (snd st)).
Proof.
  apply scan_rows_spec.
Qed.

Lemma iter_incr_fresh (n : nat) (u : string) (d : dict Z) :
  ~ In u (keys d) -> Nat.iter n (incr u) d = d ++ entry u n.
Proof.
  intros Hu. destruct n as [|n]; simpl; [now rewrite app_nil_r|].
  induction n as [|n IH].
  - simpl. unfold incr. now rewrite update_fresh.
  - change (Nat.iter (S n) (incr u) d) with (incr u (Nat.iter n (incr u) d)).
    rewrite IH. unfold incr at 1. rewrite update_last by assumption.
    do 3 f_equal. lia.
Qed.

Lemma keys_entry (u : string) (n : nat) (k : string) :
  In k (keys (entry u n)) -> k = u.
Proof.
  destruct n; simpl; [tauto|]. intros [H|[]]; now symmetry.
Qed.

Lemma keys_entries (rel : Q * Q -> Q * Q -> bool) (d : dict (list (Q * Q)))
  (k : string) :
  In k (keys (entries rel d)) -> In k (keys d).
Proof.
  induction d as [|[u ps] d IH]; simpl; [tauto|].
  unfold keys in *. rewrite map_app, in_app_iff.
  intros [H|H]; [left; symmetry; now apply keys_entry in H | right; auto].
Qed.

Lemma fold_scan_user_spec (d : dict (list (Q * Q))) (st : counters) :
  NoDup (keys d) ->
  (forall k, In k (keys d) -> ~ In k (keys (fst st))) ->
  (forall k, In k (keys d) -> ~ In k (keys (snd st))) ->
  fold_left scan_user d st =
  (fst st ++ entries concordant d, snd st ++ entries discordant d).
Proof.
  revert st.
  induction d as [|[u ps] d IH]; intros [a b] Hnd Ha Hb; simpl in *.
  - now rewrite !app_nil_r.
  - inversion Hnd as [|? ? Hu Hnd']; subst.
    change (fold_left (scan_row u ps) ps (a, b)) with (scan_user (a, b) (u, ps)).
    rewrite scan_user_spec. simpl.
    rewrite !iter_incr_fresh by (apply Ha || apply Hb; now left).
    rewrite IH; simpl; try assumption.
    + now rewrite <- !app_assoc.
    + intros k Hk. unfold keys. rewrite map_app, in_app_iff.
      intros [H|H]; [apply (Ha k); auto|].
      apply keys_entry in H. subst. contradiction.
    + intros k Hk. unfold keys. rewrite map_app, in_app_iff.
      intros [H|H]; [apply (Hb k); auto|].
      apply keys_entry in H. subst. contradiction.
Qed.

Lemma scan_spec (d : dict (list (Q * Q))) :
  NoDup (keys d) ->
  scan d = (entries concordant d, entries discordant d).
Proof.
  intros Hnd. unfold scan. rewrite fold_scan_user_spec; auto.
Qed.

(** Both counter dictionaries in closed form. *)
Lemma fcp_counters_spec (l : list Prediction) :
  fcp_counters l =
  (entries concordant (group_by_user l),
   entries discordant (group_by_user l)).
Proof.
  apply scan_spec, keys_group_NoDup.
Qed.

End Scan.

(** ** The counter dictionaries, user by user *)

Section Counters.

Local Close Scope Q_scope.

Variable rel : Q * Q -> Q * Q -> bool.

Lemma entries_group (l : list Prediction) :
  entries rel (group_by_user l) = user_entries rel l (keys (group_by_user l)).
Proof.
  rewrite group_by_user_spec at 1. unfold entries, user_entries.
  generalize (keys (group_by_user l)) as ks.
  induction ks as [|k ks IH]; simpl; [reflexivity | now rewrite IH].
Qed.

Lemma lookup_app {V : Type} (k : string) (a b : dict V) :
  lookup k (a ++ b) =
  match lookup k a with Some v => Some v | None => lookup k b end.
Proof.
  induction a as [|[k' v] a IH]; simpl; [reflexivity|].
  destruct (String.eqb k' k); [reflexivity | apply IH].
Qed.

Lemma get_user_entries (l : list Prediction) (ks : list string) (u : string) :
  get u (user_entries rel l ks) =
  if in_dec string_dec u ks then Z.of_nat (user_count rel l u) else 0%Z.
Proof.
  unfold get. induction ks as [|k ks IH]; simpl; [reflexivity|].
  rewrite lookup_app.
  destruct (string_dec k u) as [->|Hne].
  - destruct (user_count rel l u) as [|n] eqn:E; simpl.
    + destruct (in_dec string_dec u ks); [now rewrite IH | now rewrite IH].
    + now rewrite String.eqb_refl.
  - assert (Hl : lookup u (entry k (user_count rel l k)) = None).
    { destruct (user_count rel l k); simpl; [reflexivity|].
      destruct (String.eqb_spec k u); [contradiction | reflexivity]. }
    rewrite Hl. destruct (in_dec string_dec u ks); assumption.
Qed.

Lemma values_user_entries_pos (l : list Prediction) (ks : list string) :
  Forall (fun v => (0 < v)%Z) (values (user_entries rel l ks)).
Proof.
  induction ks as [|k ks IH]; simpl; [constructor|].
  unfold values in *. rewrite map_app. apply Forall_app. split; [|assumption].
  destruct (user_count rel l k); simpl; constructor; [lia | constructor].
Qed.

Lemma user_entries_nil (l : list Prediction) (ks : list string) :
  user_entries rel l ks = [] <-> forall u, In u ks -> user_count rel l u = 0.
Proof.
  induction ks as [|k ks IH]; simpl; [tauto|]. split.
  - intros H. apply app_eq_nil in H as [Hk Hks].
    intros u [<-|Hu]; [|now apply IH].
    destruct (user_count rel l k); [reflexivity | discriminate].
  - intros H. rewrite (H k) by now left. simpl. apply IH. auto.
Qed.

Lemma user_entries_ext (l l' : list Prediction) (ks : list string) :
  (forall u, user_count rel l u = user_count rel l' u) ->
  user_entries rel l ks = user_entries rel l' ks.
Proof.
  intros H. unfold user_entries. apply flat_map_ext. intros u. now rewrite H.
Qed.

Lemma user_entries_perm (l : list Prediction) (ks ks' : list string) :
  Permutation ks ks' ->
  Permutation (user_entries rel l ks) (user_entries rel l ks').
Proof.
  intros H. unfold user_entries. now rewrite H.
Qed.

(** A user has a matching pair exactly when two of its records match. *)
Lemma user_count_zero (l : list Prediction) (u : string) :
  user_count rel l u = 0 <->
  forall p q, In p l -> In q l -> uid p = u -> uid q = u ->
    rel (r_ui p, est p) (r_ui q, est q) = false.
Proof.
  unfold user_count, pair_count, prod_count.
  rewrite length_zero_iff_nil. split.
  - intros H p q Hp Hq Hup Huq.
    destruct (rel (r_ui p, est p) (r_ui q, est q)) eqn:E; [|reflexivity].
    assert (Hin : In ((r_ui p, est p), (r_ui q, est q))
                    (filter (fun ij => rel (fst ij) (snd ij))
                       (list_prod (preds_of u l) (preds_of u l)))).
    { apply filter_In. split; [|exact E].
      apply in_prod; apply In_preds_of; eauto. }
    rewrite H in Hin. contradiction.
  - intros H.
    destruct (filter _ _) as [|[x y] t] eqn:E; [reflexivity|].
    assert (Hin : In (x, y) (filter (fun ij => rel (fst ij) (snd ij))
                       (list_prod (preds_of u l) (preds_of u l))))
      by (rewrite E; now left).
    apply filter_In in Hin as [Hin Hr]. simpl in Hr.
    apply in_prod_iff in Hin as [Hx Hy].
    apply In_preds_of in Hx as [p [Hp [Hup ->]]].
    apply In_preds_of in Hy as [q [Hq [Huq ->]]].
    rewrite (H p q) in Hr by assumption. discriminate.
Qed.

End Counters.

(** ** Reordering the input *)

Section Reordering.

Local Close Scope Q_scope.

Lemma filter_perm {A : Type} (f : A -> bool) (l l' : list A) :
  Permutation l l' -> Permutation (filter f l) (filter f l').
Proof.
  induction 1 as [|x l l' _ IH|x y l|l l' l'' _ IH1 _ IH2]; simpl.
  - constructor.
  - destruct (f x); [now constructor | assumption].
  - destruct (f x), (f y); try reflexivity. apply perm_swap.
  - now transitivity (filter f l').
Qed.

Lemma preds_of_perm (u : string) (l l' : list Prediction) :
  Permutation l l' -> Permutation (preds_of u l) (preds_of u l').
Proof.
  intros H. unfold preds_of. now apply Permutation_map, filter_perm.
Qed.

Lemma prod_count_perm_r (rel : Q * Q -> Q * Q -> bool)
  (qs ps ps' : list (Q * Q)) :
  Permutation ps ps' -> prod_count rel qs ps = prod_count rel qs ps'.
Proof.
  intros H. induction qs as [|q qs IH]; [reflexivity|].
  rewrite !prod_count_cons, IH. f_equal.
  now apply Permutation_length, filter_perm.
Qed.

Lemma prod_count_perm_l (rel : Q * Q -> Q * Q -> bool)
  (qs qs' ps : list (Q * Q)) :
  Permutation qs qs' -> prod_count rel qs ps = prod_count rel qs' ps.
Proof.
  induction 1 as [|x l l' _ IH|x y l|l l' l'' _ IH1 _ IH2].
  - reflexivity.
  - now rewrite !prod_count_cons, IH.
  - rewrite !prod_count_cons. lia.
  - now rewrite IH1.
Qed.

Lemma user_count_perm (rel : Q * Q -> Q * Q -> bool) (u : string)
  (l l' : list Prediction) :
  Permutation l l' -> user_count rel l u = user_count rel l' u.
Proof.
  intros H. unfold user_count, pair_count.
  rewrite (prod_count_perm_l rel _ _ _ (preds_of_perm u l l' H)).
  apply prod_count_perm_r, preds_of_perm, H.
Qed.

Lemma keys_group_perm (l l' : list Prediction) :
  Permutation l l' ->
  Permutation (keys (group_by_user l)) (keys (group_by_user l')).
Proof.
  intros H. apply NoDup_Permutation; try apply keys_group_NoDup.
  intros u. rewrite !keys_group_In.
  split; apply Permutation_in; [|symmetry]; now apply Permutation_map.
Qed.

Lemma Zsum_perm (xs ys : list Z) :
  Permutation xs ys -> Zsum xs = Zsum ys.
Proof.
  induction 1; simpl; lia.
Qed.

Lemma mean_or_zero_perm (c c' : dict Z) :
  Permutation c c' -> mean_or_zero c = mean_or_zero c'.
Proof.
  intros H.
  assert (Hv : Permutation (values c) (values c'))
    by now apply Permutation_map.
  destruct c as [|x c], c' as [|x' c'].
  - reflexivity.
  - apply Permutation_nil in H. discriminate.
  - symmetry in H. apply Permutation_nil in H. discriminate.
  - unfold mean_or_zero, mean_int.
    change (values (x :: c)) with (snd x :: values c) in *.
    change (values (x' :: c')) with (snd x' :: values c') in *.
    now rewrite (Zsum_perm _ _ Hv), (Permutation_length Hv).
Qed.

(** Reordering the input reorders the counter dictionaries and nothing
    else. *)
Lemma fcp_counters_perm (l l' : list Prediction) :
  Permutation l l' ->
  Permutation (fst (fcp_counters l)) (fst (fcp_counters l')) /\
  Permutation (snd (fcp_counters l)) (snd (fcp_counters l')).
Proof.
  intros H. rewrite !fcp_counters_spec. simpl. rewrite !entries_group.
  split.
  - rewrite (user_entries_ext concordant l l')
      by (intros u; now apply user_count_perm).
    now apply user_entries_perm, keys_group_perm.
  - rewrite (user_entries_ext discordant l l')
      by (intros u; now apply user_count_perm).
    now apply user_entries_perm, keys_group_perm.
Qed.

End Reordering.

(** ** Rounding *)

Section Sums.

Lemma Qlt_bool_iff (x y : Q) : Qlt_bool x y = true <-> x < y.
Proof.
  unfold Qlt_bool. rewrite negb_true_iff, <- not_true_iff_false, Qle_bool_iff.
  split; [apply Qnot_le_lt | apply Qlt_not_le].
Qed.

Lemma inject_nat_nonneg (n : nat) : 0 <= inject_Z (Z.of_nat n).
Proof.
  change 0 with (inject_Z 0). rewrite <- Zle_Qle. lia.
Qed.

Lemma inject_nat_pos (n : nat) : 0 < inject_Z (Z.of_nat (S n)).
Proof.
  change 0 with (inject_Z 0). rewrite <- Zlt_Qlt. lia.
Qed.

Lemma Qsum_nonneg (xs : list Q) :
  Forall (fun x => 0 <= x) xs -> 0 <= Qsum xs.
Proof.
  induction 1 as [|x xs Hx _ IH]; simpl; [apply Qle_refl | lra].
Qed.

Lemma Qsum_perm (xs ys : list Q) :
  Permutation xs ys -> Qsum xs == Qsum ys.
Proof.
  induction 1; simpl; lra.
Qed.

Lemma Qsquare_nonneg (x : Q) : 0 <= x * x.
Proof.
  destruct (Qlt_le_dec x 0) as [H|H].
  - setoid_replace (x * x) with ((- x) * (- x)) by ring.
    apply Qmult_le_0_compat; lra.
  - now apply Qmult_le_0_compat.
Qed.

End Sums.

Section Rounding.

Lemma pow2_pos (z : Z) : 0 < 2 ^ z.
Proof.
  apply Qpower_0_lt. reflexivity.
Qed.

Lemma fit_cases (m ex : Z) :
  fit m ex = PInf \/ fit m ex = Fin (Qred (inject_Z m * 2 ^ ex)).
Proof.
  unfold fit. destruct (Qle_bool _ _); auto.
Qed.

Lemma fit_nonneg (m ex : Z) : (0 <= m)%Z -> fnonneg (fit m ex).
Proof.
  intros Hm. destruct (fit_cases m ex) as [-> | ->]; [exact I|].
  cbn [fnonneg]. rewrite Qred_correct. apply Qmult_le_0_compat.
  - change 0 with (inject_Z 0). now rewrite <- Zle_Qle.
  - apply Qlt_le_weak, pow2_pos.
Qed.

Lemma Qfloor_nonneg (s : Q) : 0 <= s -> (0 <= Qfloor s)%Z.
Proof.
  intros Hs. change 0%Z with (Qfloor 0). now apply Qfloor_resp_le.
Qed.

Lemma round_half_even_nonneg (s : Q) :
  0 <= s -> (0 <= round_half_even s)%Z.
Proof.
  intros Hs. pose proof (Qfloor_nonneg s Hs). unfold round_half_even.
  destruct (Qcompare _ _); [destruct (Z.even _)| |]; lia.
Qed.

(** The rounded integer is within one half of the argument. *)
Lemma round_half_even_error (s : Q) :
  Qabs (inject_Z (round_half_even s) - s) <= 1 # 2.
Proof.
  pose proof (Qfloor_le s) as Hlo. pose proof (Qlt_floor s) as Hhi.
  rewrite inject_Z_plus in Hhi. change (inject_Z 1) with 1 in Hhi.
  unfold round_half_even.
  destruct (Qcompare_spec (s - inject_Z (Qfloor s)) (1 # 2)) as [E|E|E].
  - destruct (Z.even (Qfloor s)); apply Qabs_Qle_condition;
      rewrite ?inject_Z_plus; change (inject_Z 1) with 1; split; lra.
  - apply Qabs_Qle_condition. split; lra.
  - apply Qabs_Qle_condition. rewrite inject_Z_plus.
    change (inject_Z 1) with 1. split; lra.
Qed.

Lemma rnd_pos_nonneg (q : Q) : 0 <= q -> fnonneg (rnd_pos q).
Proof.
  intros Hq. unfold rnd_pos. apply fit_nonneg, round_half_even_nonneg.
  apply Qle_shift_div_l; [apply pow2_pos | now rewrite Qmult_0_l].
Qed.

Lemma rnd64_nonneg (q : Q) : 0 <= q -> fnonneg (rnd64 q).
Proof.
  intros Hq. unfold rnd64.
  assert (Hr : 0 <= Qred q) by now rewrite Qred_correct.
  destruct (Qcompare_spec (Qred q) 0) as [E|E|E].
  - simpl. apply Qle_refl.
  - lra.
  - now apply rnd_pos_nonneg.
Qed.

(** Rounding sees the number, not the fraction that represents it. *)
Lemma rnd64_proper (q q' : Q) : q == q' -> rnd64 q = rnd64 q'.
Proof.
  intros E. unfold rnd64. now rewrite (Qred_complete q q' E).
Qed.

Lemma rnd_pos_not_nan (q : Q) : rnd_pos q <> NaN /\ fneg (rnd_pos q) <> NaN.
Proof.
  unfold rnd_pos.
  destruct (fit_cases (round_half_even (q / 2 ^ ulp_exp q)) (ulp_exp q))
    as [-> | ->]; split; discriminate.
Qed.

Lemma rnd64_not_nan (q : Q) : rnd64 q <> NaN.
Proof.
  unfold rnd64. destruct (Qcompare (Qred q) 0);
    [discriminate | apply rnd_pos_not_nan | apply rnd_pos_not_nan].
Qed.

Lemma fsqrt_nonneg (x : Q) : fnonneg (fsqrt x).
Proof.
  assert (H : fnonneg (sqrt_pos (Qred x))).
  { unfold sqrt_pos. apply fit_nonneg.
    pose proof (Z.sqrt_nonneg
                  (Qfloor (Qred x / 2 ^ (2 * sqrt_ulp_exp (Qred x))))).
    destruct (Qcompare _ _); [destruct (Z.even _)| |]; lia. }
  unfold fsqrt. destruct (Qcompare (Qred x) 0); [apply Qle_refl | exact H | exact H].
Qed.

End Rounding.

(** ** Error terms *)

Section Terms.

Lemma int_to_float_cases (z : Z) :
  int_to_float z = Raise OverflowError \/
  exists x, int_to_float z = Ok x /\ rnd64 (inject_Z z) = Fin x.
Proof.
  unfold int_to_float. destruct (rnd64 (inject_Z z)); eauto.
Qed.

Lemma int_to_float_nonneg (z : Z) (x : Q) :
  (0 <= z)%Z -> int_to_float z = Ok x -> 0 <= x.
Proof.
  intros Hz H. destruct (int_to_float_cases z) as [E|[x' [E Hr]]];
    rewrite E in H; [discriminate|]. injection H as <-.
  assert (Hn : fnonneg (rnd64 (inject_Z z))).
  { apply rnd64_nonneg. change 0 with (inject_Z 0). now rewrite <- Zle_Qle. }
  now rewrite Hr in Hn.
Qed.

Lemma no_nan_rnd64 (q : Q) : no_nan (VFloat (rnd64 q)).
Proof.
  pose proof (rnd64_not_nan q) as H. unfold no_nan.
  destruct (rnd64 q); try exact I. now apply H.
Qed.

Lemma py_sub_cases (a b : num) :
  py_sub a b = Raise OverflowError \/
  exists d, py_sub a b = Ok d /\ no_nan d.
Proof.
  destruct a as [x|x], b as [y|y]; simpl.
  - right. eexists. split; [reflexivity | exact I].
  - destruct (int_to_float_cases x) as [E|[x' [E _]]]; rewrite E; simpl;
      [now left|]. right. eexists. split; [reflexivity|]. apply no_nan_rnd64.
  - destruct (int_to_float_cases y) as [E|[y' [E _]]]; rewrite E; simpl;
      [now left|]. right. eexists. split; [reflexivity|]. apply no_nan_rnd64.
  - right. eexists. split; [reflexivity|]. apply no_nan_rnd64.
Qed.

Lemma py_pow2_cases (d : pyval) :
  no_nan d ->
  py_pow2 d = Raise OverflowError \/
  exists s, py_pow2 d = Ok s /\ vnonneg s.
Proof.
  destruct d as [z|[x| | |]]; simpl; intros Hd.
  - right. eexists. split; [reflexivity|]. simpl. nia.
  - pose proof (rnd64_nonneg (x * x) (Qsquare_nonneg x)) as Hn.
    destruct (rnd64 (x * x)); auto.
    right. eexists. split; [reflexivity | exact Hn].
  - right. eexists. split; [reflexivity | exact I].
  - right. eexists. split; [reflexivity | exact I].
  - contradiction.
Qed.

Lemma py_abs_nonneg (d : pyval) : no_nan d -> vnonneg (py_abs d).
Proof.
  destruct d as [z|[x| | |]]; simpl; intros Hd;
    [lia | apply Qabs_nonneg | exact I | exact I | contradiction].
Qed.

Lemma py_float_cases (s : pyval) :
  vnonneg s ->
  py_float s = Raise OverflowError \/
  exists x, py_float s = Ok x /\ fnonneg x.
Proof.
  destruct s as [z|x]; simpl; intros Hs.
  - destruct (int_to_float_cases z) as [E|[x [E _]]]; rewrite E; simpl;
      [now left|]. right. eexists. split; [reflexivity|].
    simpl. now apply (int_to_float_nonneg z).
  - right. now exists x.
Qed.

(** An error term is a non-negative float, or it is [OverflowError]. *)
Lemma sq_err_cases (p : Prediction) :
  sq_err p = Raise OverflowError \/
  exists x, sq_err p = Ok x /\ fnonneg x.
Proof.
  unfold sq_err.
  destruct (py_sub_cases (true_r p) (est_r p)) as [E|[d [E Hd]]];
    rewrite E; simpl; [now left|].
  destruct (py_pow2_cases d Hd) as [E'|[s [E' Hs]]];
    rewrite E'; simpl; [now left|].
  now apply py_float_cases.
Qed.

Lemma abs_err_cases (p : Prediction) :
  abs_err p = Raise OverflowError \/
  exists x, abs_err p = Ok x /\ fnonneg x.
Proof.
  unfold abs_err.
  destruct (py_sub_cases (true_r p) (est_r p)) as [E|[d [E Hd]]];
    rewrite E; simpl; [now left|].
  now apply py_float_cases, py_abs_nonneg.
Qed.

End Terms.

(** ** Generators and means *)

Section MapM.

Context {A B : Type}.
Variable f : A -> result B.
Variable e0 : exn.
Variable good : B -> Prop.
Hypothesis f_cases : forall a, f a = Raise e0 \/ exists b, f a = Ok b /\ good b.

Lemma mapM_cases (l : list A) :
  (mapM f l = Raise e0 /\ exists a, In a l /\ f a = Raise e0) \/
  (exists bs, mapM f l = Ok bs /\
     Forall2 (fun a b => f a = Ok b) l bs /\ Forall good bs).
Proof.
  induction l as [|a l IH]; simpl.
  - right. exists []. repeat split; constructor.
  - destruct (f_cases a) as [E|[b [E Hb]]]; rewrite E.
    + left. split; [reflexivity|]. exists a. auto.
    + destruct IH as [[E' [a' [Ha' Hf]]]|[bs [E' [H2 Hg]]]]; rewrite E'.
      * left. split; [reflexivity|]. exists a'. auto.
      * right. exists (b :: bs). repeat split; constructor; assumption.
Qed.

Lemma mapM_perm (l l' : list A) :
  Permutation l l' ->
  (mapM f l = Raise e0 /\ mapM f l' = Raise e0) \/
  (exists bs bs', mapM f l = Ok bs /\ mapM f l' = Ok bs' /\
     Permutation bs bs').
Proof.
  induction 1 as [|a l l' _ IH|a a' l|l l' l'' _ IH1 _ IH2]; simpl.
  - right. exists [], []. auto.
  - destruct (f_cases a) as [E|[b [E _]]]; rewrite E; [now left|].
    destruct IH as [[E1 E2]|[bs [bs' [E1 [E2 Hp]]]]]; rewrite E1, E2;
      [now left|]. right. exists (b :: bs), (b :: bs'). auto.
  - destruct (f_cases a) as [E|[b [E _]]],
             (f_cases a') as [E'|[b' [E' _]]]; rewrite E, E';
      try (now left).
    destruct (mapM_cases l) as [[El _]|[bs [El _]]]; rewrite El;
      [now left|]. right. exists (b' :: b :: bs), (b :: b' :: bs).
    repeat split. apply perm_swap.
  - destruct IH1 as [[E1 E2]|[bs [bs' [E1 [E2 Hp]]]]],
             IH2 as [[E3 E4]|[cs [cs' [E3 [E4 Hq]]]]];
      try (left; split; congruence); try congruence.
    right. exists bs, cs'. repeat split; try assumption.
    assert (bs' = cs) by congruence. subst. now transitivity cs.
Qed.

End MapM.

Section MeanLemmas.

Lemma existsb_perm {T : Type} (g : T -> bool) (xs ys : list T) :
  Permutation xs ys -> existsb g xs = existsb g ys.
Proof.
  induction 1 as [|x xs ys _ IH|x y xs|xs ys zs _ IH1 _ IH2]; simpl.
  - reflexivity.
  - now rewrite IH.
  - destruct (g x), (g y); reflexivity.
  - congruence.
Qed.

(** [statistics.mean] does not depend on the order of the data. *)
Lemma mean_perm (xs ys : list fval) :
  Permutation xs ys -> mean xs = mean ys.
Proof.
  intros H. destruct xs as [|x xs], ys as [|y ys].
  - reflexivity.
  - apply Permutation_nil in H. discriminate.
  - symmetry in H. apply Permutation_nil in H. discriminate.
  - unfold mean.
    rewrite (existsb_perm is_nan _ _ H), (existsb_perm is_pinf _ _ H),
      (existsb_perm is_ninf _ _ H), (Permutation_length H).
    rewrite (rnd64_proper
               (Qsum (map fin_val (x :: xs)) /
                inject_Z (Z.of_nat (List.length (y :: ys))))
               (Qsum (map fin_val (y :: ys)) /
                inject_Z (Z.of_nat (List.length (y :: ys))))).
    + reflexivity.
    + now rewrite (Qsum_perm _ _ (Permutation_map fin_val H)).
Qed.

Lemma existsb_false_of_nonneg (g : fval -> bool) (xs : list fval) :
  (forall v, fnonneg v -> g v = false) ->
  Forall fnonneg xs -> existsb g xs = false.
Proof.
  intros Hg. induction 1 as [|x xs Hx _ IH]; simpl; [reflexivity|].
  now rewrite (Hg x Hx), IH.
Qed.

(** The mean of non-negative floats is a non-negative float. *)
Lemma mean_nonneg (xs : list fval) :
  xs <> [] -> Forall fnonneg xs ->
  exists m, mean xs = Ok m /\ fnonneg m.
Proof.
  intros Hne H. destruct xs as [|x xs]; [congruence|].
  unfold mean.
  rewrite (existsb_false_of_nonneg is_nan) by
      (assumption || (intros [| | |]; simpl; tauto)).
  rewrite (existsb_false_of_nonneg is_ninf) by
      (assumption || (intros [| | |]; simpl; tauto)).
  rewrite andb_false_r. simpl orb.
  destruct (existsb is_pinf (x :: xs)).
  - exists PInf. split; [reflexivity | exact I].
  - eexists. split; [reflexivity|]. apply rnd64_nonneg.
    apply Qle_shift_div_l; [apply inject_nat_pos|]. rewrite Qmult_0_l.
    apply Qsum_nonneg, Forall_map.
    eapply Forall_impl; [|exact H]. intros [q| | |]; simpl; try tauto;
      intros _; apply Qle_refl.
Qed.

Lemma py_sqrt_nonneg (x : fval) :
  fnonneg x -> exists v, py_sqrt x = Ok v /\ fnonneg v.
Proof.
  destruct x as [q| | |]; simpl; intros H; try contradiction.
  - destruct (Qlt_bool q 0) eqn:E.
    + apply Qlt_bool_iff in E. lra.
    + eexists. split; [reflexivity | apply fsqrt_nonneg].
  - exists PInf. split; [reflexivity | exact I].
Qed.

End MeanLemmas.

(** ** FCP *)

Section Fcp.

Lemma fcp_nonempty (l : list Prediction) :
  l <> [] ->
  fcp l =
  (nc <- fcp_nc l ;;
   nd <- fcp_nd l ;;
   fcp_ <- try_except_zero_division
             (py_div nc (nc + nd)) (Raise (ValueError fcp_msg)) ;;
   Ok fcp_).
Proof.
  intros Hne. unfold fcp, fcp_nc, fcp_nd.
  destruct l as [|p l]; [congruence|].
  now destruct (fcp_counters (p :: l)).
Qed.

Lemma Zsum_pos (xs : list Z) :
  xs <> [] -> Forall (fun v => (0 < v)%Z) xs -> (0 < Zsum xs)%Z.
Proof.
  intros Hne H. induction H as [|x xs Hx Hxs IH]; [congruence|].
  simpl. destruct xs as [|y ys]; [simpl; lia|].
  assert (0 < Zsum (y :: ys))%Z by (apply IH; discriminate). lia.
Qed.

Lemma mean_or_zero_ok (c : dict Z) :
  Forall (fun v => (0 < v)%Z) (values c) ->
  exists v, mean_or_zero c = Ok v /\ 0 <= v /\ (v == 0 <-> c = []).
Proof.
  intros H. destruct c as [|x c].
  - exists 0. repeat split; auto using Qle_refl. 
  - eexists. split; [reflexivity|].
    assert (Hs : 0 < inject_Z (Zsum (values (x :: c)))).
    { change 0 with (inject_Z 0). rewrite <- Zlt_Qlt.
      apply Zsum_pos; [discriminate | assumption]. }
    assert (Hn : 0 < inject_Z (Z.of_nat (List.length (values (x :: c)))))
      by apply inject_nat_pos.
    assert (Hv : 0 < inject_Z (Zsum (values (x :: c))) /
                     inject_Z (Z.of_nat (List.length (values (x :: c))))).
    { apply Qlt_shift_div_l; [assumption | now rewrite Qmult_0_l]. }
    split; [now apply Qlt_le_weak|]. split; [|discriminate].
    intros E. rewrite E in Hv. now apply Qlt_irrefl in Hv.
Qed.

Lemma all_users_zero (rel : Q * Q -> Q * Q -> bool) (l : list Prediction) :
  (forall u, In u (keys (group_by_user l)) -> user_count rel l u = 0%nat) <->
  no_pair rel l.
Proof.
  split.
  - intros H p q Hp Hq Hu.
    assert (Hin : In (uid p) (keys (group_by_user l)))
      by (apply keys_group_In; now apply in_map).
    apply (proj1 (user_count_zero rel l (uid p)) (H _ Hin)); auto.
  - intros H u _. apply user_count_zero. intros p q Hp Hq Hup Huq.
    apply H; congruence.
Qed.

Lemma counter_mean_ok (rel : Q * Q -> Q * Q -> bool) (l : list Prediction) :
  exists v,
    mean_or_zero (entries rel (group_by_user l)) = Ok v /\
    0 <= v /\ (v == 0 <-> no_pair rel l).
Proof.
  rewrite entries_group.
  destruct (mean_or_zero_ok _ (values_user_entries_pos rel l
                                 (keys (group_by_user l))))
    as [v [Hv [Hpos Hz]]].
  exists v. repeat split; try assumption.
  - intros E. apply all_users_zero, user_entries_nil, Hz, E.
  - intros E. apply Hz, user_entries_nil, all_users_zero, E.
Qed.

(** What [fcp] does on a non-empty list, in terms of the two aggregates. *)
Lemma fcp_result (l : list Prediction) :
  l <> [] ->
  exists nc nd,
    fcp_nc l = Ok nc /\ fcp_nd l = Ok nd /\
    0 <= nc /\ 0 <= nd /\
    (nc == 0 <-> no_pair concordant l) /\
    (nd == 0 <-> no_pair discordant l) /\
    fcp l = (if Qeq_bool (nc + nd) 0 then Raise (ValueError fcp_msg)
             else Ok (nc / (nc + nd))).
Proof.
  intros Hne. rewrite (fcp_nonempty l Hne). unfold fcp_nc, fcp_nd.
  rewrite fcp_counters_spec. cbn [fst snd].
  destruct (counter_mean_ok concordant l) as [nc [Hc [Hc0 Hcz]]].
  destruct (counter_mean_ok discordant l) as [nd [Hd [Hd0 Hdz]]].
  exists nc, nd. rewrite Hc, Hd. cbn [bind].
  repeat split; try tauto.
  unfold py_div. now destruct (Qeq_bool (nc + nd) 0).
Qed.

Lemma get_incr_same (u : string) (d : dict Z) :
  get u (incr u d) = (get u d + 1)%Z.
Proof.
  unfold get, incr. rewrite lookup_update, String.eqb_refl.
  destruct (lookup u d); reflexivity.
Qed.

Lemma get_incr_other (u k : string) (d : dict Z) :
  k <> u -> get k (incr u d) = get k d.
Proof.
  intros Hne. unfold get, incr. rewrite lookup_update.
  destruct (String.eqb_spec u k); [congruence | reflexivity].
Qed.

End Fcp.

(** ** Main results *)

Example fcp_inverted :
  fcp_counters ex_inverted = ([], [("u1"%string, 6%Z)]) /\
  result_Qeq (fcp ex_inverted) (Ok 0).
Proof. split; vm_compute; reflexivity. Qed.

Example fcp_matching :
  fcp_counters ex_matching = ([("u1"%string, 3%Z)], []) /\
  result_Qeq (fcp ex_matching) (Ok 1).
Proof. split; vm_compute; reflexivity. Qed.

(** C5. On the empty prediction list each of [rmse], [mae] and [fcp] takes
    its first branch and raises [ValueError('prediction list is empty')];
    no value is returned. *)
Theorem empty_input_raises :
  rmse [] = Raise (ValueError empty_msg) /\
  mae [] = Raise (ValueError empty_msg) /\
  fcp [] = Raise (ValueError empty_msg).
Proof.
  repeat split.
Qed.

Lemma rmse_nonempty (l : list Prediction) :
  l <> [] ->
  rmse l = (sq <- mapM sq_err l ;; mse <- mean sq ;;
            rmse_ <- py_sqrt mse ;; Ok rmse_).
Proof.
  destruct l; [congruence | reflexivity].
Qed.

Lemma mae_nonempty (l : list Prediction) :
  l <> [] ->
  mae l = (ab <- mapM abs_err l ;; mae_ <- mean ab ;; Ok mae_).
Proof.
  destruct l; [congruence | reflexivity].
Qed.

Lemma Forall2_nonempty {A B : Type} (R : A -> B -> Prop) (l : list A)
  (l' : list B) :
  Forall2 R l l' -> l <> [] -> l' <> [].
Proof.
  intros H Hne. destruct H; [congruence | discriminate].
Qed.












Lemma Ok_Fin_inj (a b : Q) : @Ok fval (Fin a) = Ok (Fin b) -> a = b.
Proof.
  intros H. now injection H.
Qed.

Lemma Q2R_decimal_bounds (q lo hi : Q) :
  lo < q -> q < hi -> (Q2R lo < Q2R q < Q2R hi)%R.
Proof.
  intros H1 H2. split; now apply Qlt_Rlt.
Qed.

Lemma scenario_rmse_bounds :
  (0.27385 < Q2R (flt 0.27386127875258304) < 0.27395)%R.
Proof.
  replace 0.27385%R with (Q2R 0.27385) by (unfold Q2R; simpl; lra).
  replace 0.27395%R with (Q2R 0.27395) by (unfold Q2R; simpl; lra).
  apply Q2R_decimal_bounds; vm_compute; reflexivity.
Qed.

Lemma scenario_mae_bounds :
  (0.19999 < Q2R (flt 0.19999999999999996) < 0.20001)%R.
Proof.
  replace 0.19999%R with (Q2R 0.19999) by (unfold Q2R; simpl; lra).
  replace 0.20001%R with (Q2R 0.20001) by (unfold Q2R; simpl; lra).
  apply Q2R_decimal_bounds; vm_compute; reflexivity.
Qed.

Lemma scenario_results :
  rmse ex_scenario = Ok (Fin (flt 0.27386127875258304)) /\
  mae ex_scenario = Ok (Fin (flt 0.19999999999999996)).
Proof.
  split; vm_compute; reflexivity.
Qed.

(** C8, as stated, fails: on the scenario [rmse] is not 0.2550 to four
    decimal places (it is off by more than 0.018). *)
Lemma scenario_rmse_not_02550 :
  ~ (exists r m : Q,
       rmse ex_scenario = Ok (Fin r) /\ mae ex_scenario = Ok (Fin m) /\
       approx4 (Q2R r) 0.2550 /\ approx4 (Q2R m) 0.2000).
Proof.
  intros (r & m & Hr & _ & Ha & _).
  destruct scenario_results as [E _]. rewrite E in Hr.
  apply Ok_Fin_inj in Hr. subst r.
  destruct scenario_rmse_bounds as [Hb _].
  apply Rabs_def2 in Ha as [Ha _].
  revert Ha Hb. generalize (Q2R (flt 0.27386127875258304)). intros x Ha Hb.
  lra.
Qed.

(** C8, amended.  On the scenario [rmse] returns the float
    0.27386127875258304, which is 0.2739 to four decimal places (the
    squared errors have mean 0.075), and [mae] returns the float
    0.19999999999999996, which is 0.2000 to four decimal places. *)
Theorem scenario_values :
  exists r m : Q,
    rmse ex_scenario = Ok (Fin r) /\ mae ex_scenario = Ok (Fin m) /\
    r = flt 0.27386127875258304 /\ m = flt 0.19999999999999996 /\
    approx4 (Q2R r) 0.2739 /\ approx4 (Q2R m) 0.2000.
Proof.
  destruct scenario_results as [Er Em].
  destruct scenario_rmse_bounds as [Hlo Hhi].
  destruct scenario_mae_bounds as [Hlo' Hhi'].
  exists (flt 0.27386127875258304), (flt 0.19999999999999996).
  split; [exact Er|]. split; [exact Em|].
  split; [reflexivity|]. split; [reflexivity|].
  revert Hlo Hhi Hlo' Hhi'.
  generalize (Q2R (flt 0.27386127875258304)), (Q2R (flt 0.19999999999999996)).
  intros x y Hlo Hhi Hlo' Hhi'.
  split; apply Rabs_def1; lra.
Qed.

(** C9. Reordering a non-empty prediction list changes the result of none
    of the three metrics: same value, or same exception. *)
Theorem metrics_order_invariant (l l' : list Prediction) :
  l <> [] -> Permutation l l' ->
  rmse l' = rmse l /\ mae l' = mae l /\ fcp l' = fcp l.
Proof.
  intros Hne Hp.
  assert (Hne' : l' <> []).
  { intros ->. apply Permutation_sym, Permutation_nil in Hp. contradiction. }
  repeat split.
  - rewrite !rmse_nonempty by assumption.
    destruct (mapM_perm sq_err OverflowError fnonneg sq_err_cases l l' Hp)
      as [[E E']|(bs & bs' & E & E' & Hb)]; rewrite E, E'; cbn [bind];
      [reflexivity|]. now rewrite (mean_perm bs bs' Hb).
  - rewrite !mae_nonempty by assumption.
    destruct (mapM_perm abs_err OverflowError fnonneg abs_err_cases l l' Hp)
      as [[E E']|(bs & bs' & E & E' & Hb)]; rewrite E, E'; cbn [bind];
      [reflexivity|]. now rewrite (mean_perm bs bs' Hb).
  - destruct (fcp_counters_perm l l' Hp) as [Hc Hd].
    rewrite !fcp_nonempty by assumption. unfold fcp_nc, fcp_nd.
    now rewrite (mean_or_zero_perm _ _ Hc), (mean_or_zero_perm _ _ Hd).
Qed.

Lemma metrics_order_invariant_witness :
  ex_scenario <> [] /\ Permutation ex_scenario (rev ex_scenario) /\
  rmse (rev ex_scenario) = rmse ex_scenario /\
  mae (rev ex_scenario) = mae ex_scenario /\
  fcp (rev ex_scenario) = fcp ex_scenario.
Proof.
  assert (Hne : ex_scenario <> []) by discriminate.
  assert (Hp : Permutation ex_scenario (rev ex_scenario))
    by apply Permutation_rev.
  split; [exact Hne|]. split; [exact Hp|].
  exact (metrics_order_invariant ex_scenario (rev ex_scenario) Hne Hp).
Defined.

Lemma NoDup_map_inj {A B : Type} (f : A -> B) (l : list A) (x y : A) :
  NoDup (map f l) -> In x l -> In y l -> f x = f y -> x = y.
Proof.
  induction l as [|a l IH]; simpl; intros Hnd Hx Hy E; [contradiction|].
  inversion Hnd as [|? ? Ha Hnd']; subst.
  destruct Hx as [<-|Hx], Hy as [<-|Hy]; auto.
  - exfalso. apply Ha. rewrite E. now apply in_map.
  - exfalso. apply Ha. rewrite <- E. now apply in_map.
Qed.

Lemma concordant_iff (r0i esti r0j estj : Q) :
  concordant (r0i, esti) (r0j, estj) = true <-> estj < esti /\ r0j < r0i.
Proof.
  unfold concordant. now rewrite andb_true_iff, !Qlt_bool_iff.
Qed.

Lemma discordant_iff (r0i esti r0j estj : Q) :
  discordant (r0i, esti) (r0j, estj) = true <-> estj <= esti /\ r0i < r0j.
Proof.
  unfold discordant. now rewrite andb_true_iff, Qlt_bool_iff, Qle_bool_iff.
Qed.

Lemma concordant_irrefl (x : Q * Q) : concordant x x = false.
Proof.
  destruct x as [r e]. apply not_true_iff_false. rewrite concordant_iff.
  intros [H _]. now apply Qlt_irrefl in H.
Qed.

Lemma discordant_irrefl (x : Q * Q) : discordant x x = false.
Proof.
  destruct x as [r e]. apply not_true_iff_false. rewrite discordant_iff.
  intros [_ H]. now apply Qlt_irrefl in H.
Qed.

(** C6. On a non-empty list [fcp] raises the degenerate-input [ValueError]
    exactly when [nc + nd = 0], which is exactly when no ordered pair of
    records of one user is concordant or discordant; otherwise it returns
    [nc / (nc + nd)].  In particular it raises when every user has exactly
    one prediction. *)
Theorem fcp_degenerate_iff (l : list Prediction) :
  l <> [] ->
  exists nc nd : Q,
    fcp_nc l = Ok nc /\ fcp_nd l = Ok nd /\
    (fcp l = Raise (ValueError fcp_msg) <-> nc + nd == 0) /\
    (nc + nd == 0 <-> no_pair concordant l /\ no_pair discordant l) /\
    (~ nc + nd == 0 -> fcp l = Ok (nc / (nc + nd))) /\
    (NoDup (map uid l) -> fcp l = Raise (ValueError fcp_msg)).
Proof.
  intros Hne.
  destruct (fcp_result l Hne)
    as (nc & nd & Hc & Hd & Hc0 & Hd0 & Hcz & Hdz & Hf).
  exists nc, nd.
  assert (Hz : nc + nd == 0 <-> no_pair concordant l /\ no_pair discordant l).
  { rewrite <- Hcz, <- Hdz. split; [intros E; split; lra | intros [E1 E2]; lra]. }
  assert (Hr : fcp l = Raise (ValueError fcp_msg) <-> nc + nd == 0).
  { rewrite Hf. destruct (Qeq_bool (nc + nd) 0) eqn:E.
    - apply Qeq_bool_iff in E. tauto.
    - apply Qeq_bool_neq in E. split; [discriminate | contradiction]. }
  repeat split; try tauto.
  - intros Hnz. rewrite Hf. destruct (Qeq_bool (nc + nd) 0) eqn:E;
      [apply Qeq_bool_iff in E; contradiction | reflexivity].
  - intros Hnd. apply Hr, Hz. split; intros p q Hp Hq Hu;
      rewrite (NoDup_map_inj uid l p q Hnd Hp Hq Hu);
      [apply concordant_irrefl | apply discordant_irrefl].
Qed.

Lemma fcp_degenerate_iff_witness :
  ex_single <> [] /\ NoDup (map uid ex_single) /\
  fcp ex_single = Raise (ValueError fcp_msg).
Proof.
  assert (Hne : ex_single <> []) by discriminate.
  assert (Hnd : NoDup (map uid ex_single)).
  { simpl. repeat constructor; simpl; intuition discriminate. }
  split; [exact Hne|]. split; [exact Hnd|].
  destruct (fcp_degenerate_iff ex_single Hne) as (nc & nd & _ & _ & _ & _ & _ & H).
  exact (H Hnd).
Defined.

(** C10. A value returned by [fcp] lies in [0, 1]; it is 0 exactly when no
    ordered pair of records of one user is concordant, and 1 exactly when
    none is discordant. *)
Theorem fcp_range (l : list Prediction) (v : Q) :
  fcp l = Ok v ->
  0 <= v <= 1 /\
  (v == 0 <-> no_pair concordant l) /\
  (v == 1 <-> no_pair discordant l).
Proof.
  intros Hv.
  assert (Hne : l <> []) by (intros ->; discriminate).
  destruct (fcp_result l Hne)
    as (nc & nd & _ & _ & Hc0 & Hd0 & Hcz & Hdz & Hf).
  rewrite Hf in Hv. destruct (Qeq_bool (nc + nd) 0) eqn:E; [discriminate|].
  injection Hv as <-. apply Qeq_bool_neq in E.
  assert (Hs : 0 < nc + nd).
  { destruct (Qlt_le_dec 0 (nc + nd)) as [H|H]; [assumption|].
    exfalso. apply E. lra. }
  assert (Hm : (nc + nd) * (nc / (nc + nd)) == nc) by now apply Qmult_div_r.
  rewrite <- Hcz, <- Hdz. repeat split.
  - apply Qle_shift_div_l; [assumption | lra].
  - apply Qle_shift_div_r; [assumption | lra].
  - intros H. rewrite H in Hm. lra.
  - intros H. rewrite H. unfold Qdiv. ring.
  - intros H. rewrite H in Hm. lra.
  - intros H. setoid_replace (nc + nd) with nc by lra.
    apply Qmult_inv_r. lra.
Qed.

Lemma fcp_range_witness :
  fcp ex3 = Ok (4 # 8) /\
  0 <= 4 # 8 <= 1 /\
  (4 # 8 == 0 <-> no_pair concordant ex3) /\
  (4 # 8 == 1 <-> no_pair discordant ex3).
Proof.
  assert (H : fcp ex3 = Ok (4 # 8)) by reflexivity.
  split; [exact H | exact (fcp_range ex3 (4 # 8) H)].
Defined.

(** C4. The pair scan.  Each execution of the innermost body adds one to
    the user's concordant counter exactly when [esti > estj] and
    [r0i > r0j], and one to the discordant counter exactly when
    [esti >= estj] and [r0i < r0j], and touches no other user's counter;
    over the whole run the counters of user [u] count the matching pairs
    among all ordered pairs of [u]'s predictions, self-pairs and both
    directions included. *)
Theorem pair_scan_counts :
  (forall r0i esti r0j estj,
     (concordant (r0i, esti) (r0j, estj) = true <-> esti > estj /\ r0i > r0j) /\
     (discordant (r0i, esti) (r0j, estj) = true <-> esti >= estj /\ r0i < r0j)) /\
  (forall u pi pj st k,
     get k (fst (scan_pair u pi st pj)) =
       (get k (fst st) +
        (if String.eqb k u && concordant pi pj then 1 else 0))%Z /\
     get k (snd (scan_pair u pi st pj)) =
       (get k (snd st) +
        (if String.eqb k u && discordant pi pj then 1 else 0))%Z) /\
  (forall l u,
     let preds := preds_of u l in
     get u (fst (fcp_counters l)) =
       Z.of_nat (List.length
                   (filter (fun ij => concordant (fst ij) (snd ij))
                           (list_prod preds preds))) /\
     get u (snd (fcp_counters l)) =
       Z.of_nat (List.length
                   (filter (fun ij => discordant (fst ij) (snd ij))
                           (list_prod preds preds)))).
Proof.
  split; [|split].
  - intros. split; [apply concordant_iff | apply discordant_iff].
  - intros u pi pj [c d] k. unfold scan_pair. cbn [fst snd].
    destruct (String.eqb_spec k u) as [->|Hne]; cbn [andb].
    + destruct (concordant pi pj), (discordant pi pj);
        rewrite ?get_incr_same; split; lia.
    + destruct (concordant pi pj), (discordant pi pj);
        rewrite ?get_incr_other by assumption; split; lia.
  - intros l u preds. rewrite fcp_counters_spec. cbn [fst snd].
    rewrite !entries_group, !get_user_entries.
    destruct (in_dec string_dec u (keys (group_by_user l))) as [Hin|Hin].
    + split; reflexivity.
    + rewrite keys_group_In in Hin. unfold preds.
      rewrite (preds_of_absent u l Hin). split; reflexivity.
Qed.

(** What the code averages: only the users that own at least one matching
    pair have an entry in the counter dictionary. *)
Lemma counter_values (rel : Q * Q -> Q * Q -> bool) (l : list Prediction) :
  values (entries rel (group_by_user l)) =
  map Z.of_nat
      (filter (fun n => negb (Nat.eqb n 0))
              (map (user_count rel l) (keys (group_by_user l)))).
Proof.
  rewrite entries_group. unfold user_entries, values.
  induction (keys (group_by_user l)) as [|k ks IH]; simpl; [reflexivity|].
  rewrite map_app, IH. now destruct (user_count rel l k).
Qed.

(** C1, at a concrete input.  Users [a] and [b] each own one concordant pair
    and no discordant one, user [c] owns one discordant pair and no
    concordant one.  The code averages [nc] over [a] and [b] only and [nd]
    over [c] only, and returns 1/2; with the means taken over all three
    users the result is 2/3, the fraction of concordant pairs. *)
Theorem fcp_skips_users_without_pairs :
  fcp_counters ex3 =
    ([("a"%string, 1%Z); ("b"%string, 1%Z)], [("c"%string, 1%Z)]) /\
  (exists nc, fcp_nc ex3 = Ok nc /\ nc == 1) /\
  spec_mean_count concordant ex3 == 2 # 3 /\
  (exists nd, fcp_nd ex3 = Ok nd /\ nd == 1) /\
  spec_mean_count discordant ex3 == 1 # 3 /\
  (exists v, fcp ex3 = Ok v /\ v == 1 # 2 /\ ~ v == spec_fcp ex3) /\
  spec_fcp ex3 == 2 # 3.
Proof.
  split; [vm_compute; reflexivity|].
  split; [eexists; split; vm_compute; reflexivity|].
  split; [vm_compute; reflexivity|].
  split; [eexists; split; vm_compute; reflexivity|].
  split; [vm_compute; reflexivity|].
  split; [|vm_compute; reflexivity].
  eexists. split; [vm_compute; reflexivity|].
  split; [vm_compute; reflexivity | vm_compute; discriminate].
Qed.

(** ** Exceptions *)

(** X6. The exceptions that leave the three functions.  [rmse] and [mae]
    raise the empty-input [ValueError] on the empty list and only there; on
    a non-empty list the only exception they can raise is the
    [OverflowError] of an error term.  [fcp] raises the empty-input error on
    the empty list and otherwise at most the degenerate-input error.  No
    [StatisticsError] from [mean], no [ZeroDivisionError] and no domain
    error from [sqrt] escapes. *)
Theorem only_value_errors (l : list Prediction) (e : exn) :
  (rmse l = Raise e ->
     (l = [] /\ e = ValueError empty_msg) \/ (l <> [] /\ e = OverflowError)) /\
  (mae l = Raise e ->
     (l = [] /\ e = ValueError empty_msg) \/ (l <> [] /\ e = OverflowError)) /\
  (fcp l = Raise e ->
     (l = [] /\ e = ValueError empty_msg) \/
     (l <> [] /\ e = ValueError fcp_msg)).
Proof.
  destruct l as [|p l].
  - repeat split; intros H; left; split; try reflexivity;
      simpl in H; congruence.
  - assert (Hne : p :: l <> []) by discriminate.
    split; [|split]; intros H; right; (split; [assumption|]).
    + rewrite (rmse_nonempty _ Hne) in H.
      destruct (mapM_cases sq_err OverflowError fnonneg sq_err_cases (p :: l))
        as [[E _]|[sq [E [H2 Hg]]]]; rewrite E in H; cbn [bind] in H;
        [congruence|].
      destruct (mean_nonneg sq (Forall2_nonempty _ _ _ H2 Hne) Hg)
        as [mse [Em Hm]]. rewrite Em in H. cbn [bind] in H.
      destruct (py_sqrt_nonneg mse Hm) as [v [Ev _]].
      rewrite Ev in H. discriminate.
    + rewrite (mae_nonempty _ Hne) in H.
      destruct (mapM_cases abs_err OverflowError fnonneg abs_err_cases (p :: l))
        as [[E _]|[ab [E [H2 Hg]]]]; rewrite E in H; cbn [bind] in H;
        [congruence|].
      destruct (mean_nonneg ab (Forall2_nonempty _ _ _ H2 Hne) Hg)
        as [v [Em _]]. rewrite Em in H. discriminate.
    + destruct (fcp_result _ Hne) as (nc & nd & _ & _ & _ & _ & _ & _ & Hf).
      rewrite Hf in H. destruct (Qeq_bool (nc + nd) 0); congruence.
Qed.

(** ** Further properties of [fcp] *)

Section FcpMore.

Local Close Scope Q_scope.

Lemma first_seen_snoc (us : list string) (u : string) :
  first_seen (us ++ [u]) =
  if in_dec string_dec u (first_seen us) then first_seen us
  else first_seen us ++ [u].
Proof.
  unfold first_seen. now rewrite fold_left_app.
Qed.

Lemma keys_group_first_seen (l : list Prediction) :
  keys (group_by_user l) = first_seen (map uid l).
Proof.
  induction l as [|p l IH] using rev_ind; [reflexivity|].
  rewrite group_by_user_snoc, map_app. simpl map.
  rewrite first_seen_snoc, <- IH. unfold append_pred. apply keys_update.
Qed.

(** Number of records stored in a grouping dictionary. *)
Lemma stored_update (x : Q * Q) (u : string) (d : dict (list (Q * Q))) :
  list_sum (map (fun it => List.length (snd it)) (append_pred u x d)) =
  S (list_sum (map (fun it => List.length (snd it)) d)).
Proof.
  unfold append_pred. induction d as [|[k v] d IH]; simpl; [reflexivity|].
  destruct (String.eqb k u); simpl.
  - rewrite length_app. simpl. lia.
  - rewrite IH. lia.
Qed.

Lemma group_nonempty (l : list Prediction) (u : string)
  (ps : list (Q * Q)) :
  In (u, ps) (group_by_user l) -> ps = preds_of u l /\ ps <> [].
Proof.
  intros Hin.
  assert (Hk : In u (keys (group_by_user l)))
    by (change u with (fst (u, ps)); now apply in_map).
  pose proof (lookup_In u ps _ (keys_group_NoDup l) Hin) as Hl.
  pose proof (lookup_group u l) as Hg. rewrite Hl in Hg. subst ps.
  split; [reflexivity|].
  apply keys_group_In, in_map_iff in Hk as [p [Hu Hp]].
  intros E.
  assert (Hx : In (r_ui p, est p) (preds_of u l))
    by (apply In_preds_of; now exists p).
  rewrite E in Hx. contradiction.
Qed.

(** X7. The grouping loop.  The dictionary [predictions_u] has one entry per
    user, in order of first appearance; the entry of a user is the non-empty
    list of that user's [(r0, est)] pairs in input order; all records are
    stored, none twice. *)
Theorem group_by_user_invariants (l : list Prediction) :
  keys (group_by_user l) = first_seen (map uid l) /\
  NoDup (keys (group_by_user l)) /\
  (forall u, In u (keys (group_by_user l)) <-> exists p, In p l /\ uid p = u) /\
  (forall u ps, In (u, ps) (group_by_user l) ->
     ps <> [] /\
     ps = map (fun p => (r_ui p, est p))
              (filter (fun p => String.eqb (uid p) u) l)) /\
  list_sum (map (fun it => List.length (snd it)) (group_by_user l)) =
    List.length l.
Proof.
  split; [apply keys_group_first_seen|].
  split; [apply keys_group_NoDup|].
  split; [|split].
  - intros u. rewrite keys_group_In, in_map_iff. split.
    + intros [p [Hu Hp]]. now exists p.
    + intros [p [Hp Hu]]. now exists p.
  - intros u ps Hin. destruct (group_nonempty l u ps Hin). now split.
  - induction l as [|p l IH] using rev_ind; [reflexivity|].
    rewrite group_by_user_snoc, stored_update, IH, length_app. simpl. lia.
Qed.

Lemma user_entries_closed (rel : Q * Q -> Q * Q -> bool)
  (l : list Prediction) (ks : list string) :
  user_entries rel l ks =
  map (fun u => (u, Z.of_nat (user_count rel l u)))
      (filter (has_pairs rel l) ks).
Proof.
  induction ks as [|k ks IH]; [reflexivity|].
  unfold user_entries in *. cbn [flat_map filter]. rewrite IH.
  unfold has_pairs at 2.
  destruct (user_count rel l k) eqn:E; [reflexivity|].
  cbn [Nat.eqb negb map entry app]. now rewrite E.
Qed.

Lemma user_count_pos_iff (rel : Q * Q -> Q * Q -> bool)
  (l : list Prediction) (u : string) :
  has_pairs rel l u = true <->
  exists p q, In p l /\ In q l /\ uid p = u /\ uid q = u /\
    rel (r_ui p, est p) (r_ui q, est q) = true.
Proof.
  unfold has_pairs. rewrite negb_true_iff, Nat.eqb_neq. split.
  - intros Hne. unfold user_count, pair_count, prod_count in Hne.
    destruct (filter (fun ij => rel (fst ij) (snd ij))
                (list_prod (preds_of u l) (preds_of u l)))
      as [|[x y] t] eqn:E; [exfalso; now apply Hne|].
    assert (Hin : In (x, y) (filter (fun ij => rel (fst ij) (snd ij))
                       (list_prod (preds_of u l) (preds_of u l))))
      by (rewrite E; now left).
    apply filter_In in Hin as [Hin Hr]. simpl in Hr.
    apply in_prod_iff in Hin as [Hx Hy].
    apply In_preds_of in Hx as [p [Hp [Hup ->]]].
    apply In_preds_of in Hy as [q [Hq [Huq ->]]].
    exists p, q. tauto.
  - intros (p & q & Hp & Hq & Hup & Huq & Hr) E.
    rewrite (proj1 (user_count_zero rel l u) E p q) in Hr by assumption.
    discriminate.
Qed.

Lemma fcp_counters_closed (l : list Prediction) :
  fcp_counters l =
  (map (fun u => (u, Z.of_nat (user_count concordant l u)))
       (filter (has_pairs concordant l) (first_seen (map uid l))),
   map (fun u => (u, Z.of_nat (user_count discordant l u)))
       (filter (has_pairs discordant l) (first_seen (map uid l)))).
Proof.
  rewrite fcp_counters_spec, !entries_group, !user_entries_closed.
  now rewrite keys_group_first_seen.
Qed.

Lemma In_first_seen (l : list Prediction) (u : string) :
  In u (first_seen (map uid l)) <-> In u (map uid l).
Proof.
  rewrite <- keys_group_first_seen. apply keys_group_In.
Qed.

Lemma NoDup_first_seen (l : list Prediction) :
  NoDup (first_seen (map uid l)).
Proof.
  rewrite <- keys_group_first_seen. apply keys_group_NoDup.
Qed.

Lemma In_counter (rel : Q * Q -> Q * Q -> bool) (l : list Prediction)
  (u : string) (v : Z) :
  In (u, v)
     (map (fun u => (u, Z.of_nat (user_count rel l u)))
          (filter (has_pairs rel l) (first_seen (map uid l)))) <->
  has_pairs rel l u = true /\ v = Z.of_nat (user_count rel l u).
Proof.
  rewrite in_map_iff. split.
  - intros [k [E Hk]]. injection E as -> ->.
    apply filter_In in Hk as [_ Hk]. now split.
  - intros [Hu ->]. exists u. split; [reflexivity|].
    apply filter_In. split; [|assumption].
    apply In_first_seen. apply user_count_pos_iff in Hu
      as (p & _ & Hp & _ & Hup & _). rewrite <- Hup. now apply in_map.
Qed.

(** X8. The counter dictionaries after the scan.  [nc_u] has an entry for a
    user exactly when two records of that user satisfy
    [esti > estj and r0i > r0j], [nd_u] exactly when two satisfy
    [esti >= estj and r0i < r0j]; entries appear in order of the users'
    first appearance, no user twice, and a stored count is always positive:
    a zero is never stored. *)
Theorem counters_keep_only_users_with_pairs (l : list Prediction) :
  fst (fcp_counters l) =
    map (fun u => (u, Z.of_nat (user_count concordant l u)))
        (filter (has_pairs concordant l) (first_seen (map uid l))) /\
  snd (fcp_counters l) =
    map (fun u => (u, Z.of_nat (user_count discordant l u)))
        (filter (has_pairs discordant l) (first_seen (map uid l))) /\
  NoDup (keys (fst (fcp_counters l))) /\
  NoDup (keys (snd (fcp_counters l))) /\
  (forall u,
     In u (keys (fst (fcp_counters l))) <->
     exists p q, In p l /\ In q l /\ uid p = u /\ uid q = u /\
       (est p > est q /\ r_ui p > r_ui q)%Q) /\
  (forall u,
     In u (keys (snd (fcp_counters l))) <->
     exists p q, In p l /\ In q l /\ uid p = u /\ uid q = u /\
       (est p >= est q /\ r_ui p < r_ui q)%Q) /\
  (forall u v, In (u, v) (fst (fcp_counters l)) -> (0 < v)%Z) /\
  (forall u v, In (u, v) (snd (fcp_counters l)) -> (0 < v)%Z).
Proof.
  rewrite fcp_counters_closed. cbn [fst snd].
  assert (Hkeys : forall rel,
            keys (map (fun u => (u, Z.of_nat (user_count rel l u)))
                      (filter (has_pairs rel l) (first_seen (map uid l)))) =
            filter (has_pairs rel l) (first_seen (map uid l))).
  { intros rel. unfold keys. rewrite map_map. apply map_id. }
  assert (Hin : forall rel u,
            In u (filter (has_pairs rel l) (first_seen (map uid l))) <->
            has_pairs rel l u = true).
  { intros rel u. rewrite filter_In, In_first_seen. split; [tauto|].
    intros H. split; [|assumption].
    apply user_count_pos_iff in H as (p & _ & Hp & _ & Hup & _).
    rewrite <- Hup. now apply in_map. }
  assert (Hpos : forall rel u v,
            In (u, v) (map (fun u => (u, Z.of_nat (user_count rel l u)))
                         (filter (has_pairs rel l) (first_seen (map uid l)))) ->
            (0 < v)%Z).
  { intros rel u v H. apply In_counter in H as [H ->].
    unfold has_pairs in H. apply negb_true_iff, Nat.eqb_neq in H. lia. }
  rewrite !Hkeys.
  repeat split; try reflexivity;
    try (apply NoDup_filter, NoDup_first_seen); try (now apply Hpos).
  - rewrite Hin, user_count_pos_iff.
    intros (p & q & Hp & Hq & Hup & Huq & H).
    apply concordant_iff in H. now exists p, q.
  - rewrite Hin, user_count_pos_iff.
    intros (p & q & Hp & Hq & Hup & Huq & H).
    exists p, q. repeat split; try assumption. now apply concordant_iff.
  - rewrite Hin, user_count_pos_iff.
    intros (p & q & Hp & Hq & Hup & Huq & H).
    apply discordant_iff in H. now exists p, q.
  - rewrite Hin, user_count_pos_iff.
    intros (p & q & Hp & Hq & Hup & Huq & H).
    exists p, q. repeat split; try assumption. now apply discordant_iff.
Qed.

Lemma pair_scan_counts_closed (l : list Prediction) (u : string) :
  get u (fst (fcp_counters l)) =
    Z.of_nat (prod_count concordant (preds_of u l) (preds_of u l)) /\
  get u (snd (fcp_counters l)) =
    Z.of_nat (prod_count discordant (preds_of u l) (preds_of u l)).
Proof.
  rewrite fcp_counters_spec. cbn [fst snd].
  rewrite !entries_group, !get_user_entries.
  destruct (in_dec string_dec u (keys (group_by_user l))) as [Hin|Hin].
  - split; reflexivity.
  - rewrite keys_group_In in Hin.
    rewrite (preds_of_absent u l Hin). split; reflexivity.
Qed.

Lemma prod_count_cons_r (rel : Q * Q -> Q * Q -> bool) (q : Q * Q)
  (ps qs : list (Q * Q)) :
  prod_count rel ps (q :: qs) =
  List.length (filter (fun p => rel p q) ps) + prod_count rel ps qs.
Proof.
  induction ps as [|p ps IH]; [reflexivity|].
  rewrite !prod_count_cons, IH. simpl. destruct (rel p q); simpl; lia.
Qed.

Lemma prod_count_flip (rel : Q * Q -> Q * Q -> bool) (qs ps : list (Q * Q)) :
  prod_count (fun a b => rel b a) qs ps = prod_count rel ps qs.
Proof.
  induction qs as [|q qs IH]; simpl.
  - induction ps as [|p ps IHp]; [reflexivity|].
    now rewrite prod_count_cons, <- IHp.
  - now rewrite prod_count_cons, prod_count_cons_r, IH.
Qed.

Lemma prod_count_add (r1 r2 r3 : Q * Q -> Q * Q -> bool)
  (qs ps : list (Q * Q)) :
  (forall a b, (if r1 a b then 1 else 0) + (if r2 a b then 1 else 0) =
               if r3 a b then 1 else 0) ->
  prod_count r1 qs ps + prod_count r2 qs ps = prod_count r3 qs ps.
Proof.
  intros H. induction qs as [|q qs IH]; [reflexivity|].
  rewrite !prod_count_cons, <- IH.
  assert (E : List.length (filter (r1 q) ps) + List.length (filter (r2 q) ps) =
              List.length (filter (r3 q) ps)).
  { clear IH. induction ps as [|p ps IHp]; [reflexivity|]. simpl.
    specialize (H q p).
    destruct (r1 q p), (r2 q p), (r3 q p); simpl in *; lia. }
  lia.
Qed.

Lemma counted_once_pointwise (a b : Q * Q) :
  (if discordant a b then 1 else 0) + (if concordant b a then 1 else 0) =
  if rating_below a b then 1 else 0.
Proof.
  destruct a as [ri ei], b as [rj ej].
  unfold discordant, concordant, rating_below, Qlt_bool. simpl.
  destruct (Qle_bool ej ei), (Qle_bool rj ri); reflexivity.
Qed.

(** X9. Every ordered pair of a user's predictions whose true ratings
    differ is counted exactly once: the pair [(i, j)] with [r0i < r0j] is
    either discordant as [(i, j)] (when [esti >= estj], so a tie of the
    estimates counts as discordant) or concordant as [(j, i)].  Hence the
    two counters of a user add up to the number of ordered pairs with
    [r0i < r0j], and no pair is counted twice. *)
Theorem pairs_counted_once :
  (forall a b,
     (if concordant a b then 1 else 0) + (if concordant b a then 1 else 0) +
     (if discordant a b then 1 else 0) + (if discordant b a then 1 else 0)
     <= 1) /\
  (forall l u,
     let preds := preds_of u l in
     (get u (fst (fcp_counters l)) + get u (snd (fcp_counters l)))%Z =
     Z.of_nat (List.length
                 (filter (fun ij => rating_below (fst ij) (snd ij))
                         (list_prod preds preds)))).
Proof.
  split.
  - intros a b.
    pose proof (counted_once_pointwise a b) as H1.
    pose proof (counted_once_pointwise b a) as H2.
    assert (H3 : (if rating_below a b then 1 else 0) +
                 (if rating_below b a then 1 else 0) <= 1).
    { destruct a as [ri ei], b as [rj ej]. unfold rating_below. simpl.
      destruct (Qlt_bool ri rj) eqn:E1, (Qlt_bool rj ri) eqn:E2; try lia.
      apply Qlt_bool_iff in E1, E2. exfalso.
      apply (Qlt_irrefl ri). now apply Qlt_trans with rj. }
    lia.
  - intros l u preds.
    destruct (pair_scan_counts_closed l u) as [Hc Hd].
    fold preds in Hc, Hd. rewrite Hc, Hd, <- Nat2Z.inj_add. f_equal.
    change (prod_count concordant preds preds +
            prod_count discordant preds preds =
            prod_count rating_below preds preds).
    rewrite <- (prod_count_flip concordant preds preds), Nat.add_comm.
    apply prod_count_add. intros a b. apply counted_once_pointwise.
Qed.

Lemma update_app_notin {V : Type} (dflt : V) (f : V -> V) (k : string)
  (d0 d : dict V) :
  ~ In k (keys d0) -> update dflt f k (d0 ++ d) = d0 ++ update dflt f k d.
Proof.
  induction d0 as [|[k' v] d0 IH]; simpl; intros Hk; [reflexivity|].
  destruct (String.eqb_spec k' k) as [->|Hne].
  - exfalso. apply Hk. now left.
  - f_equal. apply IH. intros H. apply Hk. now right.
Qed.

Lemma group_from (d0 : dict (list (Q * Q))) (l : list Prediction) :
  (forall q, In q l -> ~ In (uid q) (keys d0)) ->
  fold_left (fun d p => append_pred (uid p) (r_ui p, est p) d) l d0 =
  d0 ++ group_by_user l.
Proof.
  induction l as [|q l IH] using rev_ind; intros H.
  - simpl. now rewrite app_nil_r.
  - rewrite fold_left_app, group_by_user_snoc. simpl.
    rewrite IH by (intros x Hx; apply H, in_or_app; now left).
    unfold append_pred. apply update_app_notin, H, in_or_app.
    right. now left.
Qed.

(** X10. Users are scanned independently.  When two prediction lists have
    no user in common, the grouping and both counter dictionaries of the
    concatenation are the concatenations of the parts'. *)
Theorem fcp_counters_app_disjoint (l1 l2 : list Prediction) :
  (forall p q, In p l1 -> In q l2 -> uid p <> uid q) ->
  group_by_user (l1 ++ l2) = group_by_user l1 ++ group_by_user l2 /\
  fcp_counters (l1 ++ l2) =
    (fst (fcp_counters l1) ++ fst (fcp_counters l2),
     snd (fcp_counters l1) ++ snd (fcp_counters l2)).
Proof.
  intros Hd.
  assert (Hg : group_by_user (l1 ++ l2) = group_by_user l1 ++ group_by_user l2).
  { unfold group_by_user at 1. rewrite fold_left_app.
    apply group_from. intros q Hq Hin.
    apply keys_group_In, in_map_iff in Hin as [p [Hu Hp]].
    now apply (Hd p q). }
  split; [exact Hg|].
  rewrite !fcp_counters_spec. cbn [fst snd]. rewrite Hg.
  unfold entries. now rewrite !flat_map_app.
Qed.

Lemma fcp_counters_app_disjoint_witness :
  (forall p q, In p ex_inverted -> In q (skipn 2 ex_scenario) ->
     uid p <> uid q) /\
  group_by_user (ex_inverted ++ skipn 2 ex_scenario) =
    group_by_user ex_inverted ++ group_by_user (skipn 2 ex_scenario) /\
  fcp_counters (ex_inverted ++ skipn 2 ex_scenario) =
    (fst (fcp_counters ex_inverted) ++ fst (fcp_counters (skipn 2 ex_scenario)),
     snd (fcp_counters ex_inverted) ++ snd (fcp_counters (skipn 2 ex_scenario))).
Proof.
  assert (Hd : forall p q, In p ex_inverted -> In q (skipn 2 ex_scenario) ->
                 uid p <> uid q).
  { intros p q [<-|[<-|[<-|[<-|[]]]]] [<-|[<-|[]]]; discriminate. }
  split; [exact Hd|].
  exact (fcp_counters_app_disjoint ex_inverted (skipn 2 ex_scenario) Hd).
Defined.

Lemma prod_count_ext (r1 r2 : Q * Q -> Q * Q -> bool)
  (qs ps : list (Q * Q)) :
  (forall a b, r1 a b = r2 a b) -> prod_count r1 qs ps = prod_count r2 qs ps.
Proof.
  intros H. induction qs as [|q qs IH]; [reflexivity|].
  rewrite !prod_count_cons, IH. f_equal. f_equal.
  apply filter_ext. intros p. apply H.
Qed.

Lemma length_filter_map {A B : Type} (f : B -> bool) (h : A -> B)
  (l : list A) :
  List.length (filter f (map h l)) =
  List.length (filter (fun a => f (h a)) l).
Proof.
  induction l as [|a l IH]; simpl; [reflexivity|].
  destruct (f (h a)); simpl; now rewrite IH.
Qed.

Lemma prod_count_map2 {A : Type} (rel : Q * Q -> Q * Q -> bool)
  (h h' : A -> Q * Q) (qs ps : list A) :
  (forall a b, rel (h a) (h b) = rel (h' a) (h' b)) ->
  prod_count rel (map h qs) (map h ps) =
  prod_count rel (map h' qs) (map h' ps).
Proof.
  intros H. induction qs as [|q qs IH]; [reflexivity|].
  simpl map. rewrite !prod_count_cons, IH, !length_filter_map.
  f_equal. f_equal. apply filter_ext. intros a. apply H.
Qed.

Lemma preds_of_map_ratings (f g : num -> num) (u : string)
  (l : list Prediction) :
  preds_of u (map (map_ratings f g) l) =
  map (fun p => (num_val (f (true_r p)), num_val (g (est_r p))))
      (filter (fun p => String.eqb (uid p) u) l).
Proof.
  unfold preds_of. induction l as [|p l IH]; simpl; [reflexivity|].
  destruct (String.eqb (uid p) u); simpl; now rewrite IH.
Qed.

Section Monotone.

Local Open Scope Q_scope.

Variable f : num -> num.
Hypothesis f_mono :
  forall x y, num_val (f x) < num_val (f y) <-> num_val x < num_val y.

Lemma Qlt_bool_mono (x y : num) :
  Qlt_bool (num_val (f x)) (num_val (f y)) =
  Qlt_bool (num_val x) (num_val y).
Proof.
  apply eq_true_iff_eq. rewrite !Qlt_bool_iff. apply f_mono.
Qed.

Lemma Qle_bool_mono (x y : num) :
  Qle_bool (num_val (f x)) (num_val (f y)) =
  Qle_bool (num_val x) (num_val y).
Proof.
  pose proof (Qlt_bool_mono y x) as H. unfold Qlt_bool in H.
  destruct (Qle_bool (num_val (f x)) (num_val (f y))),
           (Qle_bool (num_val x) (num_val y));
    simpl in H; congruence.
Qed.

End Monotone.

(** X11. [fcp] is a rank statistic: sending all true ratings through one
    strictly increasing function and all estimates through another changes
    neither the counter dictionaries nor the result. *)
Theorem fcp_rank_invariant (f g : num -> num) (l : list Prediction) :
  (forall x y, (num_val (f x) < num_val (f y) <-> num_val x < num_val y)%Q) ->
  (forall x y, (num_val (g x) < num_val (g y) <-> num_val x < num_val y)%Q) ->
  fcp_counters (map (map_ratings f g) l) = fcp_counters l /\
  fcp (map (map_ratings f g) l) = fcp l.
Proof.
  intros Hf Hg.
  assert (Hu : map uid (map (map_ratings f g) l) = map uid l)
    by (rewrite map_map; now apply map_ext).
  assert (Hc : forall rel,
            (forall p q,
               rel (num_val (f (true_r p)), num_val (g (est_r p)))
                   (num_val (f (true_r q)), num_val (g (est_r q))) =
               rel (r_ui p, est p) (r_ui q, est q)) ->
            forall u, user_count rel (map (map_ratings f g) l) u =
                      user_count rel l u).
  { intros rel Hrel u. unfold user_count, pair_count.
    rewrite preds_of_map_ratings. unfold preds_of.
    now apply prod_count_map2. }
  assert (Hconc : forall u, user_count concordant (map (map_ratings f g) l) u =
                            user_count concordant l u).
  { apply Hc. intros p q. unfold concordant, r_ui, est.
    now rewrite (Qlt_bool_mono g Hg), (Qlt_bool_mono f Hf). }
  assert (Hdisc : forall u, user_count discordant (map (map_ratings f g) l) u =
                            user_count discordant l u).
  { apply Hc. intros p q. unfold discordant, r_ui, est.
    now rewrite (Qle_bool_mono g Hg), (Qlt_bool_mono f Hf). }
  assert (E : fcp_counters (map (map_ratings f g) l) = fcp_counters l).
  { rewrite !fcp_counters_closed, Hu. f_equal.
    - rewrite (filter_ext _ (has_pairs concordant l))
        by (intros u; unfold has_pairs; now rewrite Hconc).
      apply map_ext. intros u. now rewrite Hconc.
    - rewrite (filter_ext _ (has_pairs discordant l))
        by (intros u; unfold has_pairs; now rewrite Hdisc).
      apply map_ext. intros u. now rewrite Hdisc. }
  split; [exact E|].
  destruct l as [|p l]; [reflexivity|].
  rewrite !fcp_nonempty by discriminate. unfold fcp_nc, fcp_nd.
  now rewrite E.
Qed.

Lemma fcp_rank_invariant_witness :
  let f := fun x => PyFloat (num_val x + 1)%Q in
  let g := fun x => PyFloat (2 * num_val x)%Q in
  (forall x y, (num_val (f x) < num_val (f y) <-> num_val x < num_val y)%Q) /\
  (forall x y, (num_val (g x) < num_val (g y) <-> num_val x < num_val y)%Q) /\
  fcp_counters (map (map_ratings f g) ex3) = fcp_counters ex3 /\
  fcp (map (map_ratings f g) ex3) = fcp ex3.
Proof.
  intros f g.
  assert (Hf : forall x y,
            (num_val (f x) < num_val (f y) <-> num_val x < num_val y)%Q)
    by (intros x y; unfold f; cbn [num_val]; split; intros H; lra).
  assert (Hg : forall x y,
            (num_val (g x) < num_val (g y) <-> num_val x < num_val y)%Q)
    by (intros x y; unfold g; cbn [num_val]; split; intros H; lra).
  split; [exact Hf|]. split; [exact Hg|].
  exact (fcp_rank_invariant f g ex3 Hf Hg).
Defined.

End FcpMore.
